(** * Live conversation session of DivtIndia's Chatbox

    A shallow embedding of [src/components/LiveFeature.tsx]: the audio codec
    used on the capture and playback paths, the turn aggregator and playback
    scheduler of [onmessage], and the start/stop lifecycle of the component.

    Conventions.
    - A finite JavaScript number (a float sample, a time in seconds) is a
      rational [Q]: multiplying a float32 sample by 32768 and dividing a
      16-bit integer by 32768 are exact, so the codec is modelled without
      rounding.  Times are idealised the same way.
    - A 16-bit integer and a byte are [Z], with the wrap-around written out.
    - Calls on browser and SDK objects are recorded, in program order, in a
      trace of [Effect]s. *)

From Stdlib Require Import ZArith QArith Qabs Qminmax Qround List String Ascii Bool Lia Lqa.
Import ListNotations.

Local Open Scope Z_scope.

(* ================================================================== *)
(** * Audio codec *)
(* ================================================================== *)

Module Codec.

(** ** Float to 16-bit integer: [int16[i] = inputData[i] * 32768] *)

(** Truncation toward zero of a finite number (the integer part that a
    typed-array store keeps). *)
Definition truncate (x : Q) : Z := Z.quot (Qnum x) (Zpos (Qden x)).

(** ECMAScript [ToInt16]: truncate, reduce modulo 2^16, read the result as a
    signed 16-bit integer. *)
Definition ToInt16 (x : Q) : Z :=
  let int16bit := truncate x mod 65536 in
  if 32768 <=? int16bit then int16bit - 65536 else int16bit.

(** The loop body of [onaudioprocess]: one element store into the
    [Int16Array]. *)
Definition int16_of_sample (s : Q) : Z := ToInt16 (s * 32768)%Q.

(** [for (let i = 0; i < l; i++) int16[i] = inputData[i] * 32768] *)
Definition int16_of_samples (inputData : list Q) : list Z :=
  map int16_of_sample inputData.

(** [new Uint8Array(int16.buffer)]: the two bytes of each element, low byte
    first. *)
Definition bytes_of_int16 (v : Z) : list Z :=
  [Z.land v 255; Z.land (Z.shiftr v 8) 255].

Definition Uint8Array_of_Int16Array (int16 : list Z) : list Z :=
  flat_map bytes_of_int16 int16.

(** What a clamping encoder would store instead; the source has no such
    step, this definition only serves as the point of comparison. *)
Definition clamped_int16_of_sample (s : Q) : Z :=
  Z.max (-32768) (Z.min 32767 (truncate (s * 32768)%Q)).

(** ** Base64 *)

Definition pad : ascii := "="%char.

(** The character of a 6-bit value in the standard alphabet. *)
Definition b64_char (n : Z) : ascii :=
  if n <? 26 then ascii_of_nat (Z.to_nat (65 + n))
  else if n <? 52 then ascii_of_nat (Z.to_nat (97 + (n - 26)))
  else if n <? 62 then ascii_of_nat (Z.to_nat (48 + (n - 52)))
  else if n =? 62 then "+"%char
  else "/"%char.

(** The 6-bit value of a character of the alphabet, if it is one. *)
Definition b64_index (c : ascii) : option Z :=
  let k := Z.of_nat (nat_of_ascii c) in
  if (65 <=? k) && (k <=? 90) then Some (k - 65)
  else if (97 <=? k) && (k <=? 122) then Some (k - 97 + 26)
  else if (48 <=? k) && (k <=? 57) then Some (k - 48 + 52)
  else if k =? 43 then Some 62
  else if k =? 47 then Some 63
  else None.

(** The four 6-bit values of a group of three bytes. *)
Definition sextet1 (a : Z) : Z := Z.shiftr a 2.
Definition sextet2 (a b : Z) : Z :=
  Z.lor (Z.shiftl (Z.land a 3) 4) (Z.shiftr b 4).
Definition sextet3 (b c : Z) : Z :=
  Z.lor (Z.shiftl (Z.land b 15) 2) (Z.shiftr c 6).
Definition sextet4 (c : Z) : Z := Z.land c 63.

(** The three bytes of a group of four 6-bit values. *)
Definition byte1 (s1 s2 : Z) : Z := Z.lor (Z.shiftl s1 2) (Z.shiftr s2 4).
Definition byte2 (s2 s3 : Z) : Z :=
  Z.lor (Z.shiftl (Z.land s2 15) 4) (Z.shiftr s3 2).
Definition byte3 (s3 s4 : Z) : Z := Z.lor (Z.shiftl (Z.land s3 3) 6) s4.

(** Modelled from the spec: [encode] of [utils/media] is not part of the
    sources; the spec says the byte sequence is base64-encoded.  Standard
    alphabet, padded to a multiple of four characters; the bytes missing
    from the last group count as zero. *)
Fixpoint encode (bytes : list Z) : string :=
  match bytes with
  | [] => EmptyString
  | [a] =>
      String (b64_char (sextet1 a))
     (String (b64_char (sextet2 a 0))
     (String pad (String pad EmptyString)))
  | [a; b] =>
      String (b64_char (sextet1 a))
     (String (b64_char (sextet2 a b))
     (String (b64_char (sextet3 b 0))
     (String pad EmptyString)))
  | a :: b :: c :: rest =>
      String (b64_char (sextet1 a))
     (String (b64_char (sextet2 a b))
     (String (b64_char (sextet3 b c))
     (String (b64_char (sextet4 c)) (encode rest))))
  end.

Definition is_pad (c : ascii) : bool := Ascii.eqb c pad.

Definition is_empty (s : string) : bool :=
  match s with EmptyString => true | _ => false end.

(** Modelled from the spec: [decode] of [utils/media] is not part of the
    sources; the spec says the payload is base64-decoded.  A text that is
    not padded base64 has no decoding. *)
Fixpoint decode (base64 : string) : option (list Z) :=
  match base64 with
  | EmptyString => Some []
  | String c1 (String c2 (String c3 (String c4 rest))) =>
      match b64_index c1, b64_index c2 with
      | Some s1, Some s2 =>
          if is_pad c3 && is_pad c4 && is_empty rest then Some [byte1 s1 s2]
          else
            match b64_index c3 with
            | Some s3 =>
                if is_pad c4 && is_empty rest
                then Some [byte1 s1 s2; byte2 s2 s3]
                else
                  match b64_index c4, decode rest with
                  | Some s4, Some tl =>
                      Some (byte1 s1 s2 :: byte2 s2 s3 :: byte3 s3 s4 :: tl)
                  | _, _ => None
                  end
            | None => None
            end
      | _, _ => None
      end
  | _ => None
  end.

(** ** 16-bit PCM to float *)

(** Reading an [Int16Array] element from its two bytes, low byte first. *)
Definition int16_of_bytes (lo hi : Z) : Z :=
  let u := Z.lor lo (Z.shiftl hi 8) in
  if 32768 <=? u then u - 65536 else u.

(** [new Int16Array(data.buffer)]: defined only for an even byte length. *)
Fixpoint Int16Array_of_bytes (data : list Z) : option (list Z) :=
  match data with
  | [] => Some []
  | lo :: hi :: rest =>
      option_map (cons (int16_of_bytes lo hi)) (Int16Array_of_bytes rest)
  | [_] => None
  end.

(** A decoded buffer, as the audio output device takes it. *)
Record PlaybackBuffer := mkPlaybackBuffer {
  sampleRate : Z;
  numberOfChannels : nat;
  frameCount : nat;
  channelData : list (list Q)
}.

(** [AudioBuffer.duration]: the length in frames over the sample rate. *)
Definition duration (b : PlaybackBuffer) : Q :=
  (inject_Z (Z.of_nat (frameCount b)) / inject_Z (sampleRate b))%Q.

(** The rescaling of one 16-bit sample to the normalised range. *)
Definition float_of_int16 (v : Z) : Q := (v # 32768)%Q.

(** Modelled from the spec: [decodeAudioData] of [utils/media] is not part
    of the sources; the spec says the bytes are reinterpreted as 16-bit
    signed PCM and rescaled by dividing by 32768 into a multi-channel
    buffer.  The samples of the channels are interleaved frame by frame. *)
Definition decodeAudioData (data : list Z) (rate : Z) (numChannels : nat)
  : option PlaybackBuffer :=
  match Int16Array_of_bytes data with
  | None => None
  | Some dataInt16 =>
      let frames := (List.length dataInt16 / numChannels)%nat in
      Some {| sampleRate := rate;
              numberOfChannels := numChannels;
              frameCount := frames;
              channelData :=
                map (fun channel =>
                       map (fun i => float_of_int16
                                       (nth (i * numChannels + channel)%nat
                                            dataInt16 0))
                           (seq 0 frames))
                    (seq 0 numChannels) |}
  end.

(** ** Ranges *)

Definition is_byte (b : Z) : Prop := 0 <= b < 256.

Definition is_int16 (v : Z) : Prop := -32768 <= v < 32768.

(** The samples whose scaled value truncates into the 16-bit range, so
    that storing them does not wrap around: [-32769 < s * 32768 < 32768]. *)
Definition in_range (s : Q) : Prop := (-32769 # 32768 < s /\ s < 1)%Q.

(** ** The two operations of the spec *)

Record EncodedFrame := mkEncodedFrame {
  data : string;
  mimeType : string
}.

(** The encode path of [onaudioprocess], up to the blob handed to the
    session. *)
Definition encodeFrame (inputData : list Q) : EncodedFrame :=
  {| data := encode (Uint8Array_of_Int16Array (int16_of_samples inputData));
     mimeType := "audio/pcm;rate=16000" |}.

(** [decodeAudioData(decode(audioData), outCtx, rate, channels)] *)
Definition decodeSegment (b64 : string) (rate : Z) (channels : nat)
  : option PlaybackBuffer :=
  match decode b64 with
  | None => None
  | Some bytes => decodeAudioData bytes rate channels
  end.

End Codec.

(* ================================================================== *)
(** * The live conversation component *)
(* ================================================================== *)

Module LiveFeature.

(** ** Data *)

(** Browser and SDK objects (streams, audio contexts, nodes, the session
    promise) are known by a handle. *)
Definition Handle := nat.
Bind Scope nat_scope with Handle.

Record ConversationTurn := mkTurn {
  user : string;
  model : string
}.

(** The value held by [audioResourcesRef]. *)
Record AudioResources := mkAudioResources {
  inputCtx : Handle;
  outputCtx : Handle;
  stream : Handle;
  processor : Handle
}.

(** The five release steps of the teardown. *)
Inductive ReleaseStep :=
| CloseSession          (* session.close() *)
| DisconnectProcessor   (* processor.disconnect() *)
| StopTracks            (* stream.getTracks().forEach(track => track.stop()) *)
| CloseInputContext     (* inputCtx.close() *)
| CloseOutputContext.   (* outputCtx.close() *)

Inductive ContextRole := InputContext | OutputContext.

(** Calls on objects outside the component, in program order. *)
Inductive Effect :=
| GetUserMedia (stream : Handle)
| NewAudioContext (role : ContextRole) (ctx : Handle) (rate : Z)
| Connect (promise : Handle)
| CreateScriptProcessor (ctx node : Handle)
| Release (step : ReleaseStep) (target : Handle)
| SendRealtimeInput (promise : Handle) (media : Codec.EncodedFrame)
| SourceStart (ctx : Handle) (when : Q) (buffer : Codec.PlaybackBuffer)
| ConsoleError.

(** The React state and the refs of the component, the [state] of the audio
    contexts as the browser reports it, and the trace. *)
Record Component := mkComponent {
  isRecording : bool;
  error : option string;
  conversationHistory : list ConversationTurn;
  sessionPromiseRef : option Handle;
  audioResourcesRef : option AudioResources;
  closedContexts : list Handle;
  trace : list Effect
}.

Definition setIsRecording (b : bool) (c : Component) : Component :=
  mkComponent b (error c) (conversationHistory c) (sessionPromiseRef c)
              (audioResourcesRef c) (closedContexts c) (trace c).

Definition setError (e : option string) (c : Component) : Component :=
  mkComponent (isRecording c) e (conversationHistory c) (sessionPromiseRef c)
              (audioResourcesRef c) (closedContexts c) (trace c).

(** [setConversationHistory(prev => f(prev))] *)
Definition setConversationHistory
  (f : list ConversationTurn -> list ConversationTurn) (c : Component)
  : Component :=
  mkComponent (isRecording c) (error c) (f (conversationHistory c))
              (sessionPromiseRef c) (audioResourcesRef c) (closedContexts c)
              (trace c).

Definition setSessionPromiseRef (p : option Handle) (c : Component)
  : Component :=
  mkComponent (isRecording c) (error c) (conversationHistory c) p
              (audioResourcesRef c) (closedContexts c) (trace c).

Definition setAudioResourcesRef (r : option AudioResources) (c : Component)
  : Component :=
  mkComponent (isRecording c) (error c) (conversationHistory c)
              (sessionPromiseRef c) r (closedContexts c) (trace c).

Definition emit (e : Effect) (c : Component) : Component :=
  mkComponent (isRecording c) (error c) (conversationHistory c)
              (sessionPromiseRef c) (audioResourcesRef c) (closedContexts c)
              (trace c ++ [e]).

(** [ctx.state !== 'closed'] *)
Definition state_not_closed (c : Component) (ctx : Handle) : bool :=
  negb (existsb (Nat.eqb ctx) (closedContexts c)).

(** The locals of one call of [startLiveConversation], shared by the
    callbacks that the call hands to [connect]. *)
Record Closure := mkClosure {
  currentInputTranscription : string;
  currentOutputTranscription : string;
  nextStartTime : Q;
  cl_stream : Handle;
  inputAudioContext : Handle;
  outputAudioContext : Handle
}.

Definition setTranscriptions (i o : string) (k : Closure) : Closure :=
  mkClosure i o (nextStartTime k) (cl_stream k) (inputAudioContext k)
            (outputAudioContext k).

Definition setNextStartTime (t : Q) (k : Closure) : Closure :=
  mkClosure (currentInputTranscription k) (currentOutputTranscription k) t
            (cl_stream k) (inputAudioContext k) (outputAudioContext k).

(** ** Inbound messages ([LiveServerMessage]) *)

Record Transcription := mkTranscription { text : string }.
Record Blob := mkBlob { inline_data : string }.
Record Part := mkPart { inlineData : option Blob }.
Record Content := mkContent { parts : list Part }.

Record ServerContent := mkServerContent {
  outputTranscription : option Transcription;
  inputTranscription : option Transcription;
  turnComplete : bool;
  modelTurn : option Content
}.

Record LiveServerMessage := mkMessage {
  serverContent : option ServerContent
}.

(** ** Teardown *)

(** [stopLiveConversation] *)
Definition stopLiveConversation (c : Component) : Component :=
  let c :=
    match sessionPromiseRef c with
    | Some p => setSessionPromiseRef None (emit (Release CloseSession p) c)
    | None => c
    end in
  let c :=
    match audioResourcesRef c with
    | Some r =>
        let c := emit (Release DisconnectProcessor (processor r)) c in
        let c := emit (Release StopTracks (stream r)) c in
        let c := if state_not_closed c (inputCtx r)
                 then emit (Release CloseInputContext (inputCtx r)) c
                 else c in
        let c := if state_not_closed c (outputCtx r)
                 then emit (Release CloseOutputContext (outputCtx r)) c
                 else c in
        setAudioResourcesRef None c
    | None => c
    end in
  setIsRecording false c.

(** ** Start *)

(** What a step of the start sequence does: it yields a handle, or it
    throws (a rejected [await] included). *)
Inductive Outcome :=
| Returns (h : Handle)
| Throws (message : string).

Record StartEnv := mkStartEnv {
  getUserMedia : Outcome;
  newInputAudioContext : Outcome;
  newOutputAudioContext : Outcome;
  connect : Outcome
}.

(** The [catch] block of [startLiveConversation]. *)
Definition start_catch (message : string) (c : Component) : Component :=
  setIsRecording false
    (setError (Some ("Failed to start conversation: " ++ message)%string) c).

(** The [try] block: what runs once [getUserMedia] has settled. *)
Definition start_try (env : StartEnv) (c : Component)
  : Component * option Closure :=
  match getUserMedia env with
  | Throws e => (start_catch e c, None)
  | Returns stream =>
      let c := emit (GetUserMedia stream) c in
      match newInputAudioContext env with
      | Throws e => (start_catch e c, None)
      | Returns ictx =>
          let c := emit (NewAudioContext InputContext ictx 16000) c in
          match newOutputAudioContext env with
          | Throws e => (start_catch e c, None)
          | Returns octx =>
              let c := emit (NewAudioContext OutputContext octx 24000) c in
              match connect env with
              | Throws e => (start_catch e c, None)
              | Returns p =>
                  (setSessionPromiseRef (Some p) (emit (Connect p) c),
                   Some (mkClosure "" "" 0 stream ictx octx))
              end
          end
      end
  end.

(** [startLiveConversation]: the component after the call, and the closure
    of the callbacks when the call got as far as [connect].  The guard reads
    [isRecording] as the component holds it.  The function never rejects:
    what is thrown inside the [try] is caught, and [setError] is the only
    way a failure is reported; [connect] stands for
    [getLiveSession().connect(...)], whose promise is stored and not
    awaited. *)
Definition startLiveConversation (env : StartEnv) (c : Component)
  : Component * option Closure :=
  if isRecording c then (c, None)
  else
    let c := setError None c in
    let c := setIsRecording true c in
    let c := setConversationHistory (fun _ => []) c in
    start_try env c.

(** ** Callbacks *)

(** [onopen]; [node] is the script processor that the input context
    creates. *)
Definition onopen (node : Handle) (k : Closure) (c : Component) : Component :=
  let c := emit (CreateScriptProcessor (inputAudioContext k) node) c in
  setAudioResourcesRef
    (Some (mkAudioResources (inputAudioContext k) (outputAudioContext k)
                            (cl_stream k) node)) c.

(** [scriptProcessor.onaudioprocess] *)
Definition onaudioprocess (inputData : list Q) (c : Component) : Component :=
  let pcmBlob := Codec.encodeFrame inputData in
  match sessionPromiseRef c with
  | Some p => emit (SendRealtimeInput p pcmBlob) c
  | None => c
  end.

(** [message.serverContent?.modelTurn?.parts[0]?.inlineData?.data], when it
    is truthy. *)
Definition audioData (message : LiveServerMessage) : option string :=
  match serverContent message with
  | Some sc =>
      match modelTurn sc with
      | Some content =>
          match parts content with
          | p :: _ =>
              match inlineData p with
              | Some b => if Codec.is_empty (inline_data b) then None
                          else Some (inline_data b)
              | None => None
              end
          | [] => None
          end
      | None => None
      end
  | None => None
  end.

(** The first half of [onmessage]: the transcription deltas and the turn
    completion. *)
Definition onmessage_transcription (message : LiveServerMessage)
  (k : Closure) (c : Component) : Closure * Component :=
  match serverContent message with
  | None => (k, c)
  | Some sc =>
      let out :=
        match outputTranscription sc with
        | Some t => (currentOutputTranscription k ++ text t)%string
        | None => currentOutputTranscription k
        end in
      let inp :=
        match inputTranscription sc with
        | Some t => (currentInputTranscription k ++ text t)%string
        | None => currentInputTranscription k
        end in
      if turnComplete sc then
        let fullInput := inp in
        let fullOutput := out in
        (setTranscriptions "" "" k,
         setConversationHistory
           (fun prev => prev ++ [mkTurn fullInput fullOutput]) c)
      else (setTranscriptions inp out k, c)
  end.

(** A handler suspended at [await decodeAudioData(...)]: the output
    context it read and the buffer it will be resumed with. *)
Definition Pending : Type := Handle * Codec.PlaybackBuffer.

(** The second half of [onmessage], the playback path, up to the [await].
    [currentTime] is the reading of [outCtx.currentTime].  A payload that
    does not decode makes the handler end at the [await], after the clock
    was raised. *)
Definition onmessage_audio_begin (currentTime : Q)
  (message : LiveServerMessage) (k : Closure) (c : Component)
  : Closure * option Pending :=
  match audioData message, audioResourcesRef c with
  | Some payload, Some r =>
      let outCtx := outputCtx r in
      let k := setNextStartTime (Qmax (nextStartTime k) currentTime) k in
      (k, option_map (pair outCtx) (Codec.decodeSegment payload 24000 1))
  | _, _ => (k, None)
  end.

(** The playback path after the [await]: it reads [nextStartTime] as it
    stands when the handler is resumed. *)
Definition onmessage_audio_resume (pending : Pending) (k : Closure)
  (c : Component) : Closure * Component :=
  let '(outCtx, audioBuffer) := pending in
  let c := emit (SourceStart outCtx (nextStartTime k) audioBuffer) c in
  (setNextStartTime (nextStartTime k + Codec.duration audioBuffer)%Q k, c).

(** The playback path of a handler that is resumed before anything else
    runs. *)
Definition onmessage_audio (currentTime : Q) (message : LiveServerMessage)
  (k : Closure) (c : Component) : Closure * Component :=
  let '(k, pending) := onmessage_audio_begin currentTime message k c in
  match pending with
  | Some p => onmessage_audio_resume p k c
  | None => (k, c)
  end.

(** [onmessage] *)
Definition onmessage (currentTime : Q) (message : LiveServerMessage)
  (k : Closure) (c : Component) : Closure * Component :=
  let '(k, c) := onmessage_transcription message k c in
  onmessage_audio currentTime message k c.

(** [e.message || 'An unknown error occurred'] *)
Definition error_text (message : option string) : string :=
  match message with
  | Some m => if Codec.is_empty m then "An unknown error occurred" else m
  | None => "An unknown error occurred"
  end.

(** [onerror] *)
Definition onerror (message : option string) (c : Component) : Component :=
  let c :=
    setError (Some ("Live connection error: " ++ error_text message)%string) c
  in
  stopLiveConversation (emit ConsoleError c).

(** [onclose] *)
Definition onclose (c : Component) : Component := stopLiveConversation c.

(** ** Runs *)

(** What can happen to a component whose session was set up, apart from a
    new call of [startLiveConversation]. *)
Inductive Event :=
| EvStop
| EvOpen (node : Handle)
| EvAudioProcess (inputData : list Q)
| EvMessage (currentTime : Q) (message : LiveServerMessage)
| EvError (message : option string)
| EvClose.

Definition step (e : Event) (s : Closure * Component) : Closure * Component :=
  let '(k, c) := s in
  match e with
  | EvStop => (k, stopLiveConversation c)
  | EvOpen node => (k, onopen node k c)
  | EvAudioProcess inputData => (k, onaudioprocess inputData c)
  | EvMessage currentTime message => onmessage currentTime message k c
  | EvError message => (k, onerror message c)
  | EvClose => (k, onclose c)
  end.

Definition run (es : list Event) (s : Closure * Component)
  : Closure * Component :=
  fold_left (fun s e => step e s) es s.

(** The inbound messages of one session, each with the reading of the
    output clock at its arrival, handled in arrival order. *)
Definition run_messages (ms : list (Q * LiveServerMessage))
  (s : Closure * Component) : Closure * Component :=
  fold_left (fun s m => onmessage (fst m) (snd m) (fst s) (snd s)) ms s.

(** ** Handlers that interleave at the [await] *)

Fixpoint remove_nth {A : Type} (i : nat) (l : list A) : list A :=
  match l, i with
  | [], _ => []
  | _ :: tl, O => tl
  | x :: tl, S i => x :: remove_nth i tl
  end.

(** A message arrives and its handler runs up to the [await], or one of
    the suspended handlers is resumed. *)
Inductive Phase :=
| Arrives (currentTime : Q) (message : LiveServerMessage)
| Resumes (i : nat).

Definition phase (e : Phase) (s : Closure * Component * list Pending)
  : Closure * Component * list Pending :=
  let '(k, c, waiting) := s in
  match e with
  | Arrives currentTime message =>
      let '(k, c) := onmessage_transcription message k c in
      let '(k, pending) := onmessage_audio_begin currentTime message k c in
      (k, c, waiting ++ match pending with Some p => [p] | None => [] end)
  | Resumes i =>
      match nth_error waiting i with
      | Some p =>
          let '(k, c) := onmessage_audio_resume p k c in
          (k, c, remove_nth i waiting)
      | None => s
      end
  end.

Definition run_phases (es : list Phase)
  (s : Closure * Component * list Pending)
  : Closure * Component * list Pending :=
  fold_left (fun s e => phase e s) es s.

(** A waiting handler whose segment has a duration that is not
    negative. *)
Definition positive_duration (p : Pending) : Prop :=
  (0 <= Codec.duration (snd p))%Q.

(** ** Observations *)

(** The lifecycle state that the component is in. *)
Inductive Lifecycle := Closed | Starting | Active.

Definition lifecycle (c : Component) : Lifecycle :=
  if isRecording c then
    match audioResourcesRef c with
    | Some _ => Active
    | None => Starting
    end
  else Closed.

(** How often a release step occurs in a trace. *)
Definition ReleaseStep_eqb (a b : ReleaseStep) : bool :=
  match a, b with
  | CloseSession, CloseSession
  | DisconnectProcessor, DisconnectProcessor
  | StopTracks, StopTracks
  | CloseInputContext, CloseInputContext
  | CloseOutputContext, CloseOutputContext => true
  | _, _ => false
  end.

Definition is_release (step : ReleaseStep) (e : Effect) : bool :=
  match e with
  | Release s _ => ReleaseStep_eqb step s
  | _ => false
  end.

Definition releases (step : ReleaseStep) (t : list Effect) : nat :=
  List.length (filter (is_release step) t).

(** The frames forwarded to the transport. *)
Definition is_send (e : Effect) : bool :=
  match e with
  | SendRealtimeInput _ _ => true
  | _ => false
  end.

Definition sends (t : list Effect) : list Effect := filter is_send t.

(** The playback schedule: start time and duration of each started
    source. *)
Definition scheduled_of (e : Effect) : list (Q * Q) :=
  match e with
  | SourceStart _ when buffer => [(when, Codec.duration buffer)]
  | _ => []
  end.

Definition schedule (t : list Effect) : list (Q * Q) :=
  flat_map scheduled_of t.

(** Adjacent entries of a schedule: the next source starts after the
    previous one has ended, and not before the previous one started. *)
Fixpoint no_overlap (l : list (Q * Q)) : Prop :=
  match l with
  | (s1, d1) :: tl =>
      match tl with
      | (s2, _) :: _ => (s1 + d1 <= s2)%Q /\ (s1 <= s2)%Q
      | [] => True
      end /\ no_overlap tl
  | [] => True
  end.

(** A schedule that starts at or after [clock], whose entries follow one
    another, and that ends at or before [final]. *)
Fixpoint chained (clock : Q) (l : list (Q * Q)) (final : Q) : Prop :=
  match l with
  | [] => (clock <= final)%Q
  | (s, d) :: tl => (clock <= s)%Q /\ (0 <= d)%Q /\ chained (s + d)%Q tl final
  end.

(** What one message contributes to the turn aggregator. *)
Definition input_delta (message : LiveServerMessage) : string :=
  match serverContent message with
  | Some sc =>
      match inputTranscription sc with
      | Some t => text t
      | None => ""
      end
  | None => ""
  end.

Definition output_delta (message : LiveServerMessage) : string :=
  match serverContent message with
  | Some sc =>
      match outputTranscription sc with
      | Some t => text t
      | None => ""
      end
  | None => ""
  end.

Definition completes (message : LiveServerMessage) : bool :=
  match serverContent message with
  | Some sc => turnComplete sc
  | None => false
  end.

Definition concat_deltas (deltas : list string) : string :=
  fold_right append EmptyString deltas.

(** The message of the first step of the start sequence that throws. *)
Definition thrown (env : StartEnv) : option string :=
  match getUserMedia env with
  | Throws e => Some e
  | Returns _ =>
      match newInputAudioContext env with
      | Throws e => Some e
      | Returns _ =>
          match newOutputAudioContext env with
          | Throws e => Some e
          | Returns _ =>
              match connect env with
              | Throws e => Some e
              | Returns _ => None
              end
          end
      end
  end.

End LiveFeature.

(* ================================================================== *)
(** * Concrete sessions *)
(* ================================================================== *)

Module Scenario.
Import LiveFeature.

(** The component as it is mounted. *)
Definition mounted : Component :=
  mkComponent false None [] None None [] [].

(** Every step of the start sequence succeeds. *)
Definition env_ok : StartEnv :=
  mkStartEnv (Returns 1) (Returns 2) (Returns 3) (Returns 4).

(** The user denies the microphone. *)
Definition env_denied : StartEnv :=
  mkStartEnv (Throws "Permission denied") (Returns 2) (Returns 3)
             (Returns 4).

(** The microphone is granted, the input context cannot be created. *)
Definition env_no_context : StartEnv :=
  mkStartEnv (Returns 1) (Throws "AudioContext unavailable")
             (Returns 3) (Returns 4).

(** The component after a start, and its callbacks. *)
Definition started : Component := fst (startLiveConversation env_ok mounted).

Definition callbacks : Closure := mkClosure "" "" 0 1 2 3.

(** The session is open: the script processor is node 5. *)
Definition active : Component := onopen 5 callbacks started.

Definition inputTranscriptionDelta (s : string) : LiveServerMessage :=
  mkMessage (Some (mkServerContent None (Some (mkTranscription s)) false None)).

Definition outputTranscriptionDelta (s : string) : LiveServerMessage :=
  mkMessage (Some (mkServerContent (Some (mkTranscription s)) None false None)).

Definition turnCompleteSignal : LiveServerMessage :=
  mkMessage (Some (mkServerContent None None true None)).

(** A delta and the completion in one message. *)
Definition lastDeltaAndComplete (s : string) : LiveServerMessage :=
  mkMessage (Some (mkServerContent None (Some (mkTranscription s)) true None)).

Definition audioSegment (b64 : string) : LiveServerMessage :=
  mkMessage
    (Some (mkServerContent None None false
             (Some (mkContent [mkPart (Some (mkBlob b64))])))).

(** Three samples of silence. *)
Definition silence : string := Codec.data (Codec.encodeFrame [0; 0; 0]%Q).

End Scenario.

(* ================================================================== *)
(** * Further observations on runs *)
(* ================================================================== *)

Module Observed.
Import LiveFeature.

(** The events that tear the session down. *)
Definition is_teardown (e : Event) : bool :=
  match e with
  | EvStop | EvError _ | EvClose => true
  | _ => false
  end.

Definition is_open (e : Event) : bool :=
  match e with
  | EvOpen _ => true
  | _ => false
  end.

(** The frames that the capture callbacks of a run were given, in order. *)
Definition frames (es : list Event) : list (list Q) :=
  flat_map (fun e => match e with
                     | EvAudioProcess inputData => [inputData]
                     | _ => []
                     end) es.

(** The messages of a run that carry the turnComplete flag. *)
Definition completions (ms : list (Q * LiveServerMessage)) : nat :=
  List.length (filter (fun m => completes (snd m)) ms).

Definition input_deltas (ms : list (Q * LiveServerMessage)) : string :=
  concat_deltas (map (fun m => input_delta (snd m)) ms).

Definition output_deltas (ms : list (Q * LiveServerMessage)) : string :=
  concat_deltas (map (fun m => output_delta (snd m)) ms).

(** All the user text, and all the model text, of a list of turns. *)
Definition user_text (turns : list ConversationTurn) : string :=
  concat_deltas (map user turns).

Definition model_text (turns : list ConversationTurn) : string :=
  concat_deltas (map model turns).

(** A schedule without gaps: the first source starts at [clock], each
    source starts where the one before ends, and the last one ends at
    [final]. *)
Fixpoint contiguous (clock : Q) (l : list (Q * Q)) (final : Q) : Prop :=
  match l with
  | [] => (clock == final)%Q
  | (s, d) :: tl => (s == clock)%Q /\ contiguous (s + d)%Q tl final
  end.

(** The environment of a start in which every step succeeds. *)
Definition env_returns (s i o p : Handle) : StartEnv :=
  mkStartEnv (Returns s) (Returns i) (Returns o) (Returns p).

End Observed.

(* ================================================================== *)
(** * The earlier version of the component *)
(* ================================================================== *)

(** [src/unnamed/part_003], second component (lines 250 to 422): the
    version that keeps one ref per resource, has no guard in
    [startLiveConversation] and does nothing in [onclose]. *)
Module Legacy.
Import LiveFeature.

Record Component := mkComponent {
  isRecording : bool;
  error : option string;
  conversationHistory : list ConversationTurn;
  sessionPromiseRef : option Handle;
  inputAudioContextRef : option Handle;
  outputAudioContextRef : option Handle;
  micStreamRef : option Handle;
  processorNodeRef : option Handle;
  closedContexts : list Handle;
  trace : list Effect
}.

Definition setIsRecording (b : bool) (c : Component) : Component :=
  mkComponent b (error c) (conversationHistory c) (sessionPromiseRef c)
    (inputAudioContextRef c) (outputAudioContextRef c) (micStreamRef c)
    (processorNodeRef c) (closedContexts c) (trace c).

Definition setError (e : option string) (c : Component) : Component :=
  mkComponent (isRecording c) e (conversationHistory c) (sessionPromiseRef c)
    (inputAudioContextRef c) (outputAudioContextRef c) (micStreamRef c)
    (processorNodeRef c) (closedContexts c) (trace c).

Definition setConversationHistory (h : list ConversationTurn)
  (c : Component) : Component :=
  mkComponent (isRecording c) (error c) h (sessionPromiseRef c)
    (inputAudioContextRef c) (outputAudioContextRef c) (micStreamRef c)
    (processorNodeRef c) (closedContexts c) (trace c).

Definition setSessionPromiseRef (p : option Handle) (c : Component)
  : Component :=
  mkComponent (isRecording c) (error c) (conversationHistory c) p
    (inputAudioContextRef c) (outputAudioContextRef c) (micStreamRef c)
    (processorNodeRef c) (closedContexts c) (trace c).

Definition setInputAudioContextRef (x : option Handle) (c : Component)
  : Component :=
  mkComponent (isRecording c) (error c) (conversationHistory c)
    (sessionPromiseRef c) x (outputAudioContextRef c) (micStreamRef c)
    (processorNodeRef c) (closedContexts c) (trace c).

Definition setOutputAudioContextRef (x : option Handle) (c : Component)
  : Component :=
  mkComponent (isRecording c) (error c) (conversationHistory c)
    (sessionPromiseRef c) (inputAudioContextRef c) x (micStreamRef c)
    (processorNodeRef c) (closedContexts c) (trace c).

Definition setMicStreamRef (x : option Handle) (c : Component) : Component :=
  mkComponent (isRecording c) (error c) (conversationHistory c)
    (sessionPromiseRef c) (inputAudioContextRef c) (outputAudioContextRef c)
    x (processorNodeRef c) (closedContexts c) (trace c).

Definition setProcessorNodeRef (x : option Handle) (c : Component)
  : Component :=
  mkComponent (isRecording c) (error c) (conversationHistory c)
    (sessionPromiseRef c) (inputAudioContextRef c) (outputAudioContextRef c)
    (micStreamRef c) x (closedContexts c) (trace c).

Definition emit (e : Effect) (c : Component) : Component :=
  mkComponent (isRecording c) (error c) (conversationHistory c)
    (sessionPromiseRef c) (inputAudioContextRef c) (outputAudioContextRef c)
    (micStreamRef c) (processorNodeRef c) (closedContexts c)
    (trace c ++ [e]).

(** [ctx.state !== 'closed'] *)
Definition state_not_closed (c : Component) (ctx : Handle) : bool :=
  negb (existsb (Nat.eqb ctx) (closedContexts c)).

(** [stopLiveConversation]: each ref is released and nulled on its own; a
    context ref is nulled only when the context was closed here. *)
Definition stopLiveConversation (c : Component) : Component :=
  let c :=
    match sessionPromiseRef c with
    | Some p => setSessionPromiseRef None (emit (Release CloseSession p) c)
    | None => c
    end in
  let c :=
    match processorNodeRef c with
    | Some n =>
        setProcessorNodeRef None (emit (Release DisconnectProcessor n) c)
    | None => c
    end in
  let c :=
    match micStreamRef c with
    | Some s => setMicStreamRef None (emit (Release StopTracks s) c)
    | None => c
    end in
  let c :=
    match inputAudioContextRef c with
    | Some i =>
        if state_not_closed c i
        then setInputAudioContextRef None
               (emit (Release CloseInputContext i) c)
        else c
    | None => c
    end in
  let c :=
    match outputAudioContextRef c with
    | Some o =>
        if state_not_closed c o
        then setOutputAudioContextRef None
               (emit (Release CloseOutputContext o) c)
        else c
    | None => c
    end in
  setIsRecording false c.

(** The [catch] block of [startLiveConversation]. *)
Definition start_catch (message : string) (c : Component) : Component :=
  setIsRecording false
    (setError (Some ("Failed to start conversation: " ++ message)%string) c).

(** [startLiveConversation]: no guard; the stream is stored as soon as it
    is there, the two contexts once both are created. *)
Definition startLiveConversation (env : StartEnv) (c : Component)
  : Component * option Closure :=
  let c := setError None c in
  let c := setIsRecording true c in
  let c := setConversationHistory [] c in
  match getUserMedia env with
  | Throws e => (start_catch e c, None)
  | Returns stream =>
      let c := setMicStreamRef (Some stream) (emit (GetUserMedia stream) c) in
      match newInputAudioContext env with
      | Throws e => (start_catch e c, None)
      | Returns ictx =>
          let c := emit (NewAudioContext InputContext ictx 16000) c in
          match newOutputAudioContext env with
          | Throws e => (start_catch e c, None)
          | Returns octx =>
              let c := emit (NewAudioContext OutputContext octx 24000) c in
              let c := setInputAudioContextRef (Some ictx) c in
              let c := setOutputAudioContextRef (Some octx) c in
              match connect env with
              | Throws e => (start_catch e c, None)
              | Returns p =>
                  (setSessionPromiseRef (Some p) (emit (Connect p) c),
                   Some (mkClosure "" "" 0 stream ictx octx))
              end
          end
      end
  end.

(** [onopen] *)
Definition onopen (node : Handle) (k : Closure) (c : Component) : Component :=
  setProcessorNodeRef (Some node)
    (emit (CreateScriptProcessor (inputAudioContext k) node) c).

(** [onclose]: "Handled by user action or error". *)
Definition onclose (c : Component) : Component := c.

(** The component as it is mounted. *)
Definition mounted : Component :=
  mkComponent false None [] None None None None None [] [].

(** No ref holds anything. *)
Definition idle (c : Component) : Prop :=
  sessionPromiseRef c = None /\ inputAudioContextRef c = None /\
  outputAudioContextRef c = None /\ micStreamRef c = None /\
  processorNodeRef c = None.

End Legacy.

(* ================================================================== *)
(** * A start that is suspended at its await *)
(* ================================================================== *)

(** [startLiveConversation] gives control back at
    [await navigator.mediaDevices.getUserMedia(...)]: whatever happens to
    the component in the meantime happens between the state updates at the
    top of the function and its [try] block. *)
Module StartAwait.
Import LiveFeature.

(** [startLiveConversation] up to the [await]: the guard and the three
    state updates.  The flag tells whether the call is now suspended at the
    [await]. *)
Definition start_begin (c : Component) : Component * bool :=
  if isRecording c then (c, false)
  else
    let c := setError None c in
    let c := setIsRecording true c in
    let c := setConversationHistory (fun _ => []) c in
    (c, true).

(** The component, the callbacks of the session that was connected last,
    and the number of calls of [startLiveConversation] that are suspended
    at the [await]. *)
Record Session := mkSession {
  callbacks : Closure;
  component : Component;
  suspended : nat
}.

Inductive Action :=
| Begins                    (* startLiveConversation is called *)
| Settles (env : StartEnv)  (* getUserMedia settles, a suspended call goes on *)
| Happens (e : Event).

Definition act (a : Action) (s : Session) : Session :=
  match a with
  | Begins =>
      let '(c, waits) := start_begin (component s) in
      mkSession (callbacks s) c
                (if waits then S (suspended s) else suspended s)
  | Settles env =>
      match suspended s with
      | O => s
      | S n =>
          let '(c, k) := start_try env (component s) in
          mkSession (match k with Some k' => k' | None => callbacks s end)
                    c n
      end
  | Happens e =>
      let '(k, c) := step e (callbacks s, component s) in
      mkSession k c (suspended s)
  end.

Definition run_actions (acts : list Action) (s : Session) : Session :=
  fold_left (fun s a => act a s) acts s.

Definition is_settle (a : Action) : bool :=
  match a with
  | Settles _ => true
  | _ => false
  end.

End StartAwait.

(* ================================================================== *)
(** * Properties of the codec *)
(* ================================================================== *)

Module CodecFacts.
Import Codec.

(** ** Bit operations as arithmetic *)

Lemma land_ones_mod (a k : Z) : 0 <= k -> Z.land a (Z.ones k) = a mod 2 ^ k.
Proof. intros Hk. now rewrite Z.land_ones. Qed.

Lemma land_3 a : Z.land a 3 = a mod 4.
Proof. exact (land_ones_mod a 2 ltac:(lia)). Qed.

Lemma land_15 a : Z.land a 15 = a mod 16.
Proof. exact (land_ones_mod a 4 ltac:(lia)). Qed.

Lemma land_63 a : Z.land a 63 = a mod 64.
Proof. exact (land_ones_mod a 6 ltac:(lia)). Qed.

Lemma land_255 a : Z.land a 255 = a mod 256.
Proof. exact (land_ones_mod a 8 ltac:(lia)). Qed.

Lemma testbit_small (y k n : Z) :
  0 <= y < 2 ^ k -> k <= n -> Z.testbit y n = false.
Proof.
  intros Hy Hn.
  destruct (Z.eq_dec y 0) as [->|Hne]; [apply Z.bits_0|].
  apply Z.bits_above_log2; [lia|].
  assert (Z.log2 y < k) by (apply Z.log2_lt_pow2; lia).
  lia.
Qed.

(** A shifted value and a value below the shift do not overlap, so [lor]
    adds them. *)
Lemma lor_shiftl_low (x k y : Z) :
  0 <= k -> 0 <= y < 2 ^ k -> Z.lor (Z.shiftl x k) y = x * 2 ^ k + y.
Proof.
  intros Hk Hy.
  assert (Hdisj : Z.land (Z.shiftl x k) y = 0).
  { apply Z.bits_inj'. intros n Hn.
    rewrite Z.land_spec, Z.bits_0.
    destruct (Z.lt_ge_cases n k) as [Hlt|Hge].
    - now rewrite Z.shiftl_spec_low.
    - rewrite (testbit_small y k n) by assumption. apply andb_false_r. }
  rewrite <- Z.lxor_lor by exact Hdisj.
  rewrite <- Z.add_nocarry_lxor by exact Hdisj.
  now rewrite Z.shiftl_mul_pow2.
Qed.

Ltac to_arith :=
  rewrite ?land_3, ?land_15, ?land_63, ?land_255;
  rewrite ?Z.shiftr_div_pow2 by lia;
  rewrite ?Z.shiftl_mul_pow2 by lia;
  change (2 ^ 2) with 4; change (2 ^ 4) with 16; change (2 ^ 6) with 64;
  change (2 ^ 8) with 256.

Ltac euclid := Z.to_euclidean_division_equations; lia.

(** Side conditions of [lor_shiftl_low]. *)
Ltac side := first [ lia | to_arith; euclid ].

(** ** The base64 alphabet *)

Lemma alphabet_table :
  forallb (fun i =>
             let n := Z.of_nat i in
             match b64_index (b64_char n) with
             | Some m => (m =? n) && negb (is_pad (b64_char n))
             | None => false
             end) (seq 0 64) = true.
Proof. vm_compute. reflexivity. Qed.

Lemma b64_index_char (n : Z) :
  0 <= n < 64 ->
  b64_index (b64_char n) = Some n /\ is_pad (b64_char n) = false.
Proof.
  intros Hn.
  pose proof (proj1 (forallb_forall _ _) alphabet_table (Z.to_nat n)) as H.
  cbv beta zeta in H. rewrite Z2Nat.id in H by lia.
  assert (Hin : In (Z.to_nat n) (seq 0 64)) by (apply in_seq; lia).
  specialize (H Hin).
  destruct (b64_index (b64_char n)) as [m|]; [|discriminate].
  apply andb_true_iff in H. destruct H as [Hm Hp].
  apply Z.eqb_eq in Hm. subst m.
  split; [reflexivity|]. now apply negb_true_iff.
Qed.

(** ** The four characters of a group *)

Section Sextets.
Variables a b c : Z.
Hypothesis Ha : is_byte a.
Hypothesis Hb : is_byte b.
Hypothesis Hc : is_byte c.

Lemma sextet1_arith : sextet1 a = a / 4.
Proof. unfold sextet1. now to_arith. Qed.

Lemma sextet2_arith : sextet2 a b = a mod 4 * 16 + b / 16.
Proof.
  unfold sextet2, is_byte in *.
  rewrite lor_shiftl_low by side. now to_arith.
Qed.

Lemma sextet3_arith : sextet3 b c = b mod 16 * 4 + c / 64.
Proof.
  unfold sextet3, is_byte in *.
  rewrite lor_shiftl_low by side. now to_arith.
Qed.

Lemma sextet4_arith : sextet4 c = c mod 64.
Proof. unfold sextet4. now to_arith. Qed.

Lemma sextets_range :
  0 <= sextet1 a < 64 /\ 0 <= sextet2 a b < 64 /\
  0 <= sextet3 b c < 64 /\ 0 <= sextet4 c < 64.
Proof.
  rewrite sextet1_arith, sextet2_arith, sextet3_arith, sextet4_arith.
  unfold is_byte in *. repeat split; euclid.
Qed.

(** Joining the sextets gives the bytes back. *)
Lemma byte1_sextets : byte1 (sextet1 a) (sextet2 a b) = a.
Proof.
  rewrite sextet1_arith, sextet2_arith.
  unfold byte1, is_byte in *.
  rewrite lor_shiftl_low by side. to_arith. euclid.
Qed.

Lemma byte2_sextets : byte2 (sextet2 a b) (sextet3 b c) = b.
Proof.
  rewrite sextet2_arith, sextet3_arith.
  unfold byte2, is_byte in *.
  rewrite lor_shiftl_low by side. to_arith. euclid.
Qed.

Lemma byte3_sextets : byte3 (sextet3 b c) (sextet4 c) = c.
Proof.
  rewrite sextet3_arith, sextet4_arith.
  unfold byte3, is_byte in *.
  rewrite lor_shiftl_low by side. to_arith. euclid.
Qed.
End Sextets.

(** ** Base64 round trip *)

Lemma byte_0 : is_byte 0.
Proof. unfold is_byte. lia. Qed.

Lemma decode_one (a : Z) :
  is_byte a -> decode (encode [a]) = Some [a].
Proof.
  intros Ha.
  destruct (sextets_range a 0 0 Ha byte_0 byte_0) as (H1 & H2 & _ & _).
  cbn [encode decode].
  destruct (b64_index_char _ H1) as [-> _].
  destruct (b64_index_char _ H2) as [-> _].
  change (is_pad pad) with true. cbn [andb is_empty].
  now rewrite (byte1_sextets a 0 0 Ha byte_0 byte_0).
Qed.

Lemma decode_two (a b : Z) :
  is_byte a -> is_byte b -> decode (encode [a; b]) = Some [a; b].
Proof.
  intros Ha Hb.
  destruct (sextets_range a b 0 Ha Hb byte_0) as (H1 & H2 & H3 & _).
  cbn [encode decode].
  destruct (b64_index_char _ H1) as [-> _].
  destruct (b64_index_char _ H2) as [-> _].
  destruct (b64_index_char _ H3) as [-> ->].
  change (is_pad pad) with true. cbn [andb is_empty].
  rewrite (byte1_sextets a b 0 Ha Hb byte_0).
  now rewrite (byte2_sextets a b 0 Ha Hb byte_0).
Qed.

Lemma decode_three (a b c : Z) (rest : list Z) :
  is_byte a -> is_byte b -> is_byte c ->
  decode (encode rest) = Some rest ->
  decode (encode (a :: b :: c :: rest)) = Some (a :: b :: c :: rest).
Proof.
  intros Ha Hb Hc IH.
  destruct (sextets_range a b c Ha Hb Hc) as (H1 & H2 & H3 & H4).
  cbn [encode decode].
  destruct (b64_index_char _ H1) as [-> _].
  destruct (b64_index_char _ H2) as [-> _].
  destruct (b64_index_char _ H3) as [-> ->].
  destruct (b64_index_char _ H4) as [-> ->].
  cbn [andb]. rewrite IH.
  rewrite (byte1_sextets a b c Ha Hb Hc).
  rewrite (byte2_sextets a b c Ha Hb Hc).
  now rewrite (byte3_sextets a b c Ha Hb Hc).
Qed.

Lemma decode_encode (bytes : list Z) :
  Forall is_byte bytes -> decode (encode bytes) = Some bytes.
Proof.
  assert (H : forall n bs, (List.length bs <= n)%nat -> Forall is_byte bs ->
                           decode (encode bs) = Some bs).
  { induction n as [|n IH]; intros bs Hlen Hbs.
    - destruct bs; [reflexivity | cbn in Hlen; lia].
    - destruct bs as [|a [|b [|c rest]]]; [reflexivity | | |].
      + inversion Hbs; subst. now apply decode_one.
      + inversion Hbs as [|? ? Ha Hbs']; subst.
        inversion Hbs'; subst. now apply decode_two.
      + inversion Hbs as [|? ? Ha Hbs1]; subst.
        inversion Hbs1 as [|? ? Hb Hbs2]; subst.
        inversion Hbs2 as [|? ? Hc Hbs3]; subst.
        apply decode_three; trivial.
        apply IH; [cbn in Hlen; lia | assumption]. }
  intros Hbs. now apply (H (List.length bytes)).
Qed.

(** ** 16-bit integers and their bytes *)

Lemma bytes_of_int16_bytes (v : Z) : Forall is_byte (bytes_of_int16 v).
Proof.
  unfold bytes_of_int16, is_byte. repeat constructor; to_arith; euclid.
Qed.

Lemma int16_of_bytes_of_int16 (v : Z) :
  is_int16 v ->
  int16_of_bytes (Z.land v 255) (Z.land (Z.shiftr v 8) 255) = v.
Proof.
  unfold is_int16, int16_of_bytes. intros Hv.
  rewrite Z.lor_comm, lor_shiftl_low by (first [ lia | to_arith; euclid ]).
  to_arith. cbv zeta.
  destruct (Z.leb_spec 32768 (v / 256 mod 256 * 256 + v mod 256)); euclid.
Qed.

Lemma Uint8Array_bytes (int16 : list Z) :
  Forall is_byte (Uint8Array_of_Int16Array int16).
Proof.
  induction int16 as [|v l IH]; [constructor|].
  unfold Uint8Array_of_Int16Array. cbn [flat_map].
  apply Forall_app. split; [apply bytes_of_int16_bytes | exact IH].
Qed.

Lemma Int16Array_of_Uint8Array (int16 : list Z) :
  Forall is_int16 int16 ->
  Int16Array_of_bytes (Uint8Array_of_Int16Array int16) = Some int16.
Proof.
  induction 1 as [|v l Hv _ IH]; [reflexivity|].
  unfold Uint8Array_of_Int16Array in *.
  cbn [flat_map bytes_of_int16 app Int16Array_of_bytes].
  rewrite IH. cbn [option_map]. now rewrite int16_of_bytes_of_int16.
Qed.

(** ** The conversion of one sample *)

Lemma ToInt16_range (x : Q) : is_int16 (ToInt16 x).
Proof.
  unfold is_int16, ToInt16. cbv zeta.
  pose proof (Z.mod_pos_bound (truncate x) 65536 ltac:(lia)).
  destruct (Z.leb_spec 32768 (truncate x mod 65536)); lia.
Qed.

Lemma ToInt16_congruent (x : Q) :
  ToInt16 x mod 65536 = truncate x mod 65536.
Proof.
  unfold ToInt16. cbv zeta.
  destruct (Z.leb_spec 32768 (truncate x mod 65536)).
  - replace (truncate x mod 65536 - 65536)
      with (truncate x mod 65536 + (-1) * 65536) by lia.
    now rewrite Z.mod_add, Z.mod_mod by lia.
  - now rewrite Z.mod_mod by lia.
Qed.

Lemma ToInt16_wrap (x : Q) :
  ToInt16 x = truncate x - 65536 * ((truncate x + 32768) / 65536).
Proof.
  unfold ToInt16. cbv zeta.
  destruct (Z.leb_spec 32768 (truncate x mod 65536)); euclid.
Qed.

Lemma ToInt16_in_range (x : Q) :
  is_int16 (truncate x) -> ToInt16 x = truncate x.
Proof.
  unfold is_int16, ToInt16. intros Hx. cbv zeta.
  destruct (Z.leb_spec 32768 (truncate x mod 65536)); euclid.
Qed.

Lemma int16_of_samples_range (inputData : list Q) :
  Forall is_int16 (int16_of_samples inputData).
Proof.
  unfold int16_of_samples. apply Forall_forall. intros v Hv.
  apply in_map_iff in Hv. destruct Hv as (s & <- & _).
  apply ToInt16_range.
Qed.

(** The frame of any samples decodes, and to the 16-bit values that were
    stored. *)
Lemma decode_encodeFrame (inputData : list Q) :
  decode (data (encodeFrame inputData))
  = Some (Uint8Array_of_Int16Array (int16_of_samples inputData)).
Proof. apply decode_encode, Uint8Array_bytes. Qed.

Lemma map_nth_seq {A B} (f : A -> B) (d : A) (l : list A) :
  map (fun i => f (nth i l d)) (seq 0 (List.length l)) = map f l.
Proof.
  induction l as [|x l IH]; [reflexivity|].
  cbn [List.length seq map nth]. f_equal.
  rewrite <- seq_shift, map_map. exact IH.
Qed.

Lemma decodeSegment_encodeFrame (inputData : list Q) (rate : Z) :
  decodeSegment (data (encodeFrame inputData)) rate 1
  = Some {| sampleRate := rate;
            numberOfChannels := 1;
            frameCount := List.length inputData;
            channelData :=
              [map (fun s => float_of_int16 (int16_of_sample s)) inputData] |}.
Proof.
  unfold decodeSegment. rewrite decode_encodeFrame.
  unfold decodeAudioData.
  rewrite Int16Array_of_Uint8Array by apply int16_of_samples_range.
  cbv zeta. rewrite Nat.div_1_r.
  assert (Hlen : List.length (int16_of_samples inputData)
                 = List.length inputData)
    by apply length_map.
  rewrite Hlen. f_equal. f_equal. cbn [seq map]. f_equal.
  rewrite <- Hlen.
  rewrite (map_ext _ (fun i => float_of_int16
                                 (nth i (int16_of_samples inputData) 0))).
  - rewrite map_nth_seq. unfold int16_of_samples. now rewrite map_map.
  - intros i. now rewrite Nat.mul_1_r, Nat.add_0_r.
Qed.

(** ** Quantisation *)

Lemma truncate_scaled (s : Q) :
  truncate (s * 32768)%Q = Z.quot (Qnum s * 32768) (Zpos (Qden s)).
Proof.
  unfold truncate. cbn [Qmult Qnum Qden inject_Z]. now rewrite Pos.mul_1_r.
Qed.

Lemma in_range_num (s : Q) :
  in_range s ->
  -32769 * Zpos (Qden s) < Qnum s * 32768 /\ Qnum s < Zpos (Qden s).
Proof.
  unfold in_range, Qlt. cbn [Qnum Qden]. lia.
Qed.

Lemma rem_bound_nonpos (a b : Z) :
  a <= 0 -> 0 < b -> - b < Z.rem a b <= 0.
Proof.
  intros Ha Hb.
  pose proof (Z.rem_bound_pos (- a) b ltac:(lia) Hb) as H.
  rewrite Z.rem_opp_l in H by lia. lia.
Qed.

Lemma truncate_in_range (s : Q) :
  in_range s -> is_int16 (truncate (s * 32768)%Q).
Proof.
  intros Hs. apply in_range_num in Hs. rewrite truncate_scaled.
  unfold is_int16.
  set (n := Qnum s) in *. set (d := Zpos (Qden s)) in *.
  assert (Hd : 0 < d) by (subst d; lia).
  pose proof (Z.quot_rem' (n * 32768) d) as Hqr.
  destruct (Z.le_gt_cases 0 n) as [Hn | Hn].
  - pose proof (Z.rem_bound_pos (n * 32768) d ltac:(lia) Hd) as Hr.
    pose proof (Z.quot_pos (n * 32768) d ltac:(lia) Hd) as Hq.
    split; [lia|].
    apply (Z.mul_lt_mono_pos_l d); lia.
  - pose proof (rem_bound_nonpos (n * 32768) d ltac:(lia) Hd) as Hr.
    pose proof (Z.quot_le_mono (n * 32768) 0 d Hd ltac:(lia)) as Hq.
    rewrite Z.quot_0_l in Hq by lia.
    split; [|lia].
    assert (Hlt : d * (-32769) < d * Z.quot (n * 32768) d) by lia.
    apply Z.mul_lt_mono_pos_l in Hlt; lia.
Qed.

(** Truncation loses less than one unit. *)
Lemma truncate_error (s : Q) :
  let d := Zpos (Qden s) in
  - d < truncate (s * 32768)%Q * d - Qnum s * 32768 < d.
Proof.
  cbv zeta. rewrite truncate_scaled.
  set (n := Qnum s). set (d := Zpos (Qden s)).
  assert (Hd : 0 < d) by (subst d; lia).
  pose proof (Z.quot_rem' (n * 32768) d) as Hqr.
  destruct (Z.le_gt_cases 0 (n * 32768)) as [Hn | Hn].
  - pose proof (Z.rem_bound_pos (n * 32768) d Hn Hd). lia.
  - pose proof (rem_bound_nonpos (n * 32768) d ltac:(lia) Hd). lia.
Qed.

Lemma quantisation_error (s : Q) :
  in_range s ->
  (Qabs (float_of_int16 (int16_of_sample s) - s) < 1 # 32768)%Q.
Proof.
  intros Hs. unfold int16_of_sample.
  rewrite ToInt16_in_range by now apply truncate_in_range.
  pose proof (truncate_error s) as He. cbv zeta in He.
  apply Qabs_Qlt_condition.
  unfold float_of_int16, Qlt, Qminus, Qplus, Qopp. cbn [Qnum Qden].
  rewrite !Pos2Z.inj_mul. split; nia.
Qed.

(** ** Examples *)

(** Scenario A of the spec: a frame of 4096 zero samples is 8192 zero
    bytes, tagged as 16 kHz PCM. *)
Example zero_frame :
  Uint8Array_of_Int16Array (int16_of_samples (repeat 0%Q (64 * 64)))
  = repeat 0 (2 * 64 * 64) /\
  mimeType (encodeFrame (repeat 0%Q (64 * 64))) = "audio/pcm;rate=16000"%string.
Proof. split; vm_compute; reflexivity. Qed.

Example encode_three_zero_samples :
  data (encodeFrame [0; 0; 0]%Q) = "AAAAAAAA"%string.
Proof. reflexivity. Qed.

Example encode_hi : encode [72; 105] = "SGk="%string.
Proof. reflexivity. Qed.

Example decode_hi : decode "SGk=" = Some [72; 105].
Proof. reflexivity. Qed.

Example decode_malformed : decode "SGk" = None.
Proof. reflexivity. Qed.

Example truncation_is_toward_zero :
  int16_of_sample (3 # 65536) = 1 /\ int16_of_sample (-3 # 65536) = -1.
Proof. split; reflexivity. Qed.

Example odd_length_has_no_samples :
  decodeAudioData [1; 2; 3] 24000 1 = None.
Proof. reflexivity. Qed.

(** ** The encoding does not clamp *)

(** C7.  The float-to-int16 conversion of the capture path performs no
    bounds clamping.  Every sample is multiplied by 32768 and truncated, and
    the stored value is that truncation wrapped into the signed 16-bit
    range: it lies in [-32768, 32767], it is congruent to the truncation
    modulo 2^16, and it is the truncation minus the multiple of 2^16 that
    brings it into the range.  The sample 1.0 is therefore stored as -32768,
    where a clamping encoder stores 32767. *)
Theorem int16_of_sample_wraps :
  (forall s : Q,
      let t := truncate (s * 32768)%Q in
      is_int16 (int16_of_sample s) /\
      int16_of_sample s mod 65536 = t mod 65536 /\
      int16_of_sample s = t - 65536 * ((t + 32768) / 65536)) /\
  int16_of_sample 1 = -32768 /\
  clamped_int16_of_sample 1 = 32767.
Proof.
  split; [|split; reflexivity].
  intros s t. unfold int16_of_sample. split; [|split].
  - apply ToInt16_range.
  - apply ToInt16_congruent.
  - apply ToInt16_wrap.
Qed.

(** ** Round trip *)

(** C3, as amended.  For every array of samples whose scaled values fit
    the 16-bit range ([-32769 < s * 32768 < 32768], which covers [-1, 1)),
    the frame that the capture path encodes decodes, as one channel, to an
    array of the same length whose every sample is within one 16-bit
    quantisation step (1/32768) of the original. *)
Theorem roundtrip_within_one_step (samples : list Q) (rate : Z) :
  Forall in_range samples ->
  exists decoded,
    option_map channelData
      (decodeSegment (data (encodeFrame samples)) rate 1) = Some [decoded] /\
    Forall2 (fun s d => (Qabs (d - s) < 1 # 32768)%Q) samples decoded.
Proof.
  intros Hs.
  exists (map (fun s => float_of_int16 (int16_of_sample s)) samples).
  split.
  - now rewrite decodeSegment_encodeFrame.
  - induction Hs as [|s l Hin _ IH]; cbn [map]; constructor.
    + now apply quantisation_error.
    + exact IH.
Qed.

Lemma roundtrip_within_one_step_witness :
  exists decoded,
    option_map channelData
      (decodeSegment
         (data (encodeFrame [1 # 2; -1 # 3; -1; -65537 # 65536]%Q)) 24000 1)
    = Some [decoded] /\
    Forall2 (fun s d => (Qabs (d - s) < 1 # 32768)%Q)
            [1 # 2; -1 # 3; -1; -65537 # 65536]%Q decoded.
Proof.
  apply roundtrip_within_one_step.
  repeat constructor; unfold Qlt; cbn; lia.
Defined.

(** C3, as stated, fails: the sample 1.0 comes back as -1.0, two units
    away from the original. *)
Lemma roundtrip_fails_at_one :
  option_map channelData (decodeSegment (data (encodeFrame [1%Q])) 24000 1)
  = Some [[(-32768 # 32768)%Q]] /\
  ~ (Qabs ((-32768 # 32768) - 1) <= 1 # 32768)%Q.
Proof.
  split; [reflexivity|].
  intros H. vm_compute in H. apply H. reflexivity.
Qed.

End CodecFacts.

(* ================================================================== *)
(** * Properties of the component *)
(* ================================================================== *)

Module LiveFacts.
Import LiveFeature.

(** ** Traces *)

Lemma sends_app (t u : list Effect) : sends (t ++ u) = sends t ++ sends u.
Proof. apply filter_app. Qed.

Lemma sends_emit (e : Effect) (c : Component) :
  is_send e = false -> sends (trace (emit e c)) = sends (trace c).
Proof.
  intros He. cbn [emit trace]. rewrite sends_app. cbn [sends filter].
  rewrite He. apply app_nil_r.
Qed.

Lemma schedule_app (t u : list Effect) :
  schedule (t ++ u) = schedule t ++ schedule u.
Proof. apply flat_map_app. Qed.

(** ** Teardown *)

Ltac stop_cases c :=
  destruct c as [rec err hist [p|] [[ictx octx str node]|] closed tr];
  unfold stopLiveConversation, state_not_closed;
  cbn [sessionPromiseRef audioResourcesRef emit setSessionPromiseRef
       setAudioResourcesRef setIsRecording isRecording error
       conversationHistory closedContexts trace inputCtx outputCtx stream
       processor];
  repeat match goal with
         | |- context [negb (existsb ?f ?l)] => destruct (negb (existsb f l))
         end;
  cbn [sessionPromiseRef audioResourcesRef emit setSessionPromiseRef
       setAudioResourcesRef setIsRecording isRecording error
       conversationHistory closedContexts trace inputCtx outputCtx stream
       processor].

Lemma stop_refs (c : Component) :
  isRecording (stopLiveConversation c) = false /\
  sessionPromiseRef (stopLiveConversation c) = None /\
  audioResourcesRef (stopLiveConversation c) = None.
Proof. stop_cases c; repeat split. Qed.

Lemma stop_without_refs (c : Component) :
  sessionPromiseRef c = None -> audioResourcesRef c = None ->
  stopLiveConversation c = setIsRecording false c.
Proof.
  intros Hp Hr. unfold stopLiveConversation. rewrite Hp, Hr. reflexivity.
Qed.

Lemma stop_stop (c : Component) :
  stopLiveConversation (stopLiveConversation c) = stopLiveConversation c.
Proof.
  destruct (stop_refs c) as (Hrec & Hp & Hr).
  rewrite stop_without_refs by assumption.
  destruct (stopLiveConversation c); cbn in *. now subst.
Qed.

Lemma stop_keeps (c : Component) :
  error (stopLiveConversation c) = error c /\
  conversationHistory (stopLiveConversation c) = conversationHistory c /\
  closedContexts (stopLiveConversation c) = closedContexts c.
Proof. stop_cases c; repeat split. Qed.

(** What a teardown adds to the trace: release steps only, each at most
    once. *)
Lemma stop_trace (c : Component) :
  exists released,
    trace (stopLiveConversation c) = trace c ++ released /\
    sends released = [] /\
    schedule released = [] /\
    forall step, (releases step released <= 1)%nat.
Proof.
  stop_cases c;
    match goal with
    | |- exists r, ?t = ?t ++ r /\ _ => exists []; rewrite app_nil_r
    | |- _ => eexists; rewrite <- ?app_assoc
    end;
    (split; [reflexivity|]);
    (split; [reflexivity|]);
    (split; [reflexivity|]);
    intros []; cbn; lia.
Qed.

Lemma stop_sends (c : Component) :
  sends (trace (stopLiveConversation c)) = sends (trace c).
Proof.
  destruct (stop_trace c) as (released & -> & Hs & _).
  rewrite sends_app, Hs. apply app_nil_r.
Qed.

(** C4.  The teardown is idempotent.  A second [stopLiveConversation], or a
    late [onclose], after a [stopLiveConversation] leaves the component as
    the first call left it, trace included; no step of the model can throw.
    The state reached is the terminal closed state ([isRecording] false,
    both refs null).  All the release steps of the two calls together are
    those of the first call, and among them each of the five steps (close
    session, disconnect processor, stop tracks, close input context, close
    output context) occurs at most once. *)
Theorem stop_idempotent (c : Component) :
  stopLiveConversation (stopLiveConversation c) = stopLiveConversation c /\
  onclose (stopLiveConversation c) = stopLiveConversation c /\
  lifecycle (stopLiveConversation c) = Closed /\
  sessionPromiseRef (stopLiveConversation c) = None /\
  audioResourcesRef (stopLiveConversation c) = None /\
  exists released,
    trace (stopLiveConversation (stopLiveConversation c))
    = trace c ++ released /\
    forall step, (releases step released <= 1)%nat.
Proof.
  destruct (stop_refs c) as (Hrec & Hp & Hr).
  split; [apply stop_stop|].
  split; [apply stop_stop|].
  split; [unfold lifecycle; now rewrite Hrec|].
  split; [exact Hp|].
  split; [exact Hr|].
  rewrite stop_stop.
  destruct (stop_trace c) as (released & Ht & _ & _ & Hn).
  now exists released.
Qed.

(** ** The message handler, part by part *)

Lemma transcription_component (m : LiveServerMessage) (k : Closure)
  (c : Component) :
  let c' := snd (onmessage_transcription m k c) in
  trace c' = trace c /\
  sessionPromiseRef c' = sessionPromiseRef c /\
  audioResourcesRef c' = audioResourcesRef c.
Proof.
  unfold onmessage_transcription.
  destruct (serverContent m) as [sc|]; [|now cbn].
  destruct (turnComplete sc); now cbn.
Qed.

Lemma transcription_clock (m : LiveServerMessage) (k : Closure)
  (c : Component) :
  nextStartTime (fst (onmessage_transcription m k c)) = nextStartTime k.
Proof.
  unfold onmessage_transcription.
  destruct (serverContent m) as [sc|]; [|reflexivity].
  destruct (turnComplete sc); reflexivity.
Qed.

Lemma audio_component (t : Q) (m : LiveServerMessage) (k : Closure)
  (c : Component) :
  let s' := onmessage_audio t m k c in
  conversationHistory (snd s') = conversationHistory c /\
  sessionPromiseRef (snd s') = sessionPromiseRef c /\
  audioResourcesRef (snd s') = audioResourcesRef c /\
  currentInputTranscription (fst s') = currentInputTranscription k /\
  currentOutputTranscription (fst s') = currentOutputTranscription k.
Proof.
  unfold onmessage_audio, onmessage_audio_begin, onmessage_audio_resume.
  destruct (audioData m) as [payload|]; [|now cbn].
  destruct (audioResourcesRef c) as [r|] eqn:Hr; [|now cbn].
  cbn [nextStartTime setNextStartTime].
  destruct (Codec.decodeSegment payload 24000 1); cbn; now rewrite ?Hr.
Qed.

Lemma chained_weaken (a b : Q) (l : list (Q * Q)) (final : Q) :
  (a <= b)%Q -> chained b l final -> chained a l final.
Proof.
  intros Hab. destruct l as [|[s d] tl]; cbn [chained].
  - intros H. lra.
  - intros (H1 & H2 & H3). repeat split; trivial. lra.
Qed.

(** A decoded segment has a duration that is not negative. *)
Lemma decoded_duration (payload : string) (buf : Codec.PlaybackBuffer) :
  Codec.decodeSegment payload 24000 1 = Some buf ->
  (0 <= Codec.duration buf)%Q.
Proof.
  unfold Codec.decodeSegment, Codec.decodeAudioData.
  destruct (Codec.decode payload) as [bytes|]; [|discriminate].
  destruct (Codec.Int16Array_of_bytes bytes) as [l|]; [|discriminate].
  intros [= <-]. unfold Codec.duration. cbn [Codec.frameCount Codec.sampleRate].
  apply Qle_shift_div_l; [reflexivity|].
  rewrite Qmult_0_l.
  unfold Qle. cbn [Qnum Qden inject_Z]. lia.
Qed.

(** Up to the [await] the clock can only be raised; what is left waiting
    has a duration that is not negative. *)
Lemma audio_begin_clock (t : Q) (m : LiveServerMessage) (k : Closure)
  (c : Component) :
  (nextStartTime k <= nextStartTime (fst (onmessage_audio_begin t m k c)))%Q /\
  match snd (onmessage_audio_begin t m k c) with
  | Some p => positive_duration p
  | None => True
  end.
Proof.
  unfold onmessage_audio_begin.
  destruct (audioData m) as [payload|]; [|split; [apply Qle_refl | exact I]].
  destruct (audioResourcesRef c) as [r|]; [|split; [apply Qle_refl | exact I]].
  cbn [fst snd nextStartTime setNextStartTime].
  split; [apply Q.le_max_l|].
  destruct (Codec.decodeSegment payload 24000 1) as [buf|] eqn:Hd; [|exact I].
  exact (decoded_duration payload buf Hd).
Qed.

(** A resumed handler starts one source, at the clock, and leaves the clock
    at the end of that source. *)
Lemma audio_resume_schedule (p : Pending) (k : Closure) (c : Component) :
  positive_duration p ->
  let s' := onmessage_audio_resume p k c in
  exists new,
    trace (snd s') = trace c ++ new /\
    sends new = [] /\
    chained (nextStartTime k) (schedule new) (nextStartTime (fst s')).
Proof.
  destruct p as [outCtx buf]. unfold positive_duration. cbn [snd]. intros Hd.
  eexists. cbn [onmessage_audio_resume fst snd emit trace nextStartTime
                setNextStartTime].
  split; [reflexivity|]. split; [reflexivity|].
  cbn [schedule flat_map scheduled_of app chained].
  split; [apply Qle_refl|]. split; [exact Hd | apply Qle_refl].
Qed.

(** What the playback path adds: at most one started source, at or after
    the clock, after which the clock stands at the end of that source. *)
Lemma audio_schedule (t : Q) (m : LiveServerMessage) (k : Closure)
  (c : Component) :
  let s' := onmessage_audio t m k c in
  exists new,
    trace (snd s') = trace c ++ new /\
    sends new = [] /\
    chained (nextStartTime k) (schedule new) (nextStartTime (fst s')).
Proof.
  cbv zeta. unfold onmessage_audio.
  destruct (audio_begin_clock t m k c) as (Hclock & Hp).
  destruct (onmessage_audio_begin t m k c) as [k1 [p|]]; cbn [fst snd] in *.
  - destruct (audio_resume_schedule p k1 c Hp) as (new & Ht & Hs & Hc).
    exists new. split; [exact Ht|]. split; [exact Hs|].
    now apply (chained_weaken _ (nextStartTime k1)).
  - exists []. cbn. rewrite app_nil_r. now repeat split.
Qed.

Lemma onmessage_split (t : Q) (m : LiveServerMessage) (k : Closure)
  (c : Component) :
  onmessage t m k c
  = onmessage_audio t m (fst (onmessage_transcription m k c))
                    (snd (onmessage_transcription m k c)).
Proof.
  unfold onmessage. now destruct (onmessage_transcription m k c).
Qed.

Lemma onmessage_schedule (t : Q) (m : LiveServerMessage) (k : Closure)
  (c : Component) :
  let s' := onmessage t m k c in
  exists new,
    trace (snd s') = trace c ++ new /\
    sends new = [] /\
    chained (nextStartTime k) (schedule new) (nextStartTime (fst s')).
Proof.
  cbv zeta. rewrite onmessage_split.
  destruct (audio_schedule t m (fst (onmessage_transcription m k c))
              (snd (onmessage_transcription m k c))) as (new & Ht & Hs & Hc).
  destruct (transcription_component m k c) as (Htr & _).
  rewrite transcription_clock in Hc. rewrite Htr in Ht.
  now exists new.
Qed.

Lemma onmessage_refs (t : Q) (m : LiveServerMessage) (k : Closure)
  (c : Component) :
  sessionPromiseRef (snd (onmessage t m k c)) = sessionPromiseRef c /\
  audioResourcesRef (snd (onmessage t m k c)) = audioResourcesRef c.
Proof.
  rewrite onmessage_split.
  destruct (audio_component t m (fst (onmessage_transcription m k c))
              (snd (onmessage_transcription m k c))) as (_ & Hp & Hr & _).
  destruct (transcription_component m k c) as (_ & Hp' & Hr').
  split; congruence.
Qed.

(** ** Nothing is sent once the session reference is null *)

Lemma step_without_session (e : Event) (k : Closure) (c : Component) :
  sessionPromiseRef c = None ->
  sessionPromiseRef (snd (step e (k, c))) = None /\
  sends (trace (snd (step e (k, c)))) = sends (trace c).
Proof.
  intros Hp. destruct e as [|node|inputData|t m|msg|]; cbn [step snd].
  - split; [apply stop_refs | apply stop_sends].
  - split; [exact Hp|].
    unfold onopen. cbn [setAudioResourcesRef trace].
    now apply (sends_emit _ c).
  - unfold onaudioprocess. rewrite Hp. now split.
  - destruct (onmessage_refs t m k c) as (Hp' & _).
    destruct (onmessage_schedule t m k c) as (new & Ht & Hs & _).
    split; [congruence|].
    rewrite Ht, sends_app, Hs. apply app_nil_r.
  - unfold onerror. split; [apply stop_refs|].
    rewrite stop_sends. now rewrite sends_emit.
  - split; [apply stop_refs | apply stop_sends].
Qed.

Lemma run_without_session (es : list Event) (k : Closure) (c : Component) :
  sessionPromiseRef c = None ->
  sessionPromiseRef (snd (run es (k, c))) = None /\
  sends (trace (snd (run es (k, c)))) = sends (trace c).
Proof.
  revert k c. induction es as [|e es IH]; intros k c Hp; [now split|].
  unfold run in *. cbn [fold_left].
  destruct (step_without_session e k c Hp) as (Hp' & Hs').
  destruct (step e (k, c)) as [k' c']. cbn [snd] in *.
  destruct (IH k' c' Hp') as (Hp'' & Hs'').
  split; [exact Hp'' | congruence].
Qed.

(** ** Start *)

Example start_ok :
  startLiveConversation Scenario.env_ok Scenario.mounted
  = (Scenario.started, Some Scenario.callbacks) /\
  lifecycle Scenario.started = Starting /\
  trace Scenario.started
  = [GetUserMedia 1; NewAudioContext InputContext 2 16000;
     NewAudioContext OutputContext 3 24000; Connect 4].
Proof. repeat split. Qed.

Example stop_active :
  trace (stopLiveConversation Scenario.active)
  = trace Scenario.active
      ++ [Release CloseSession 4; Release DisconnectProcessor 5;
          Release StopTracks 1; Release CloseInputContext 2;
          Release CloseOutputContext 3].
Proof. reflexivity. Qed.

Lemma lifecycle_not_closed (c : Component) :
  lifecycle c <> Closed <-> isRecording c = true.
Proof.
  unfold lifecycle. destruct (isRecording c).
  - split; [reflexivity|]. intros _. destruct (audioResourcesRef c); discriminate.
  - split; [intros H; now elim H | discriminate].
Qed.

(** C5, as amended.  A call of [startLiveConversation] while the component
    is not closed (a second start without an intervening stop or closed
    event) returns at once: it raises and reports no error, changes nothing
    in the component, adds nothing to the trace and registers no callbacks,
    so the first session stays as it was, active or starting. *)
Theorem start_while_recording (env : StartEnv) (c : Component) :
  lifecycle c <> Closed ->
  startLiveConversation env c = (c, None).
Proof.
  intros H. apply lifecycle_not_closed in H.
  unfold startLiveConversation. now rewrite H.
Qed.

Lemma start_while_recording_witness :
  lifecycle Scenario.active = Active /\
  startLiveConversation Scenario.env_ok Scenario.active
  = (Scenario.active, None).
Proof.
  split; [reflexivity|].
  apply start_while_recording. discriminate.
Defined.

(** C5, as stated, fails: [startLiveConversation] never rejects, a failure
    is only ever reported through [setError]; a second start on an active
    session reports none. *)
Lemma second_start_reports_no_error :
  lifecycle Scenario.active = Active /\
  ~ (exists reason,
        error (fst (startLiveConversation Scenario.env_ok Scenario.active))
        = Some reason).
Proof.
  split; [reflexivity|]. intros [reason H]. discriminate H.
Qed.

Lemma start_catch_closed (message : string) (c : Component) :
  isRecording (start_catch message c) = false /\
  error (start_catch message c)
  = Some ("Failed to start conversation: " ++ message)%string /\
  sessionPromiseRef (start_catch message c) = sessionPromiseRef c /\
  audioResourcesRef (start_catch message c) = audioResourcesRef c /\
  trace (start_catch message c) = trace c.
Proof. repeat split. Qed.

(** C6, as amended.  If a step of the start sequence throws (microphone
    acquisition, creation of an audio context, or the call of connect),
    a start from the closed state ends in the closed state again and
    surfaces the reason in the error message; no session is registered and
    no callbacks exist.  When it is [getUserMedia] that rejects, nothing
    was acquired at all: no audio context was created, the trace is as it
    was. *)
Theorem start_failure_closes (env : StartEnv) (c : Component)
  (reason : string) :
  lifecycle c = Closed ->
  thrown env = Some reason ->
  let c' := fst (startLiveConversation env c) in
  lifecycle c' = Closed /\
  error c' = Some ("Failed to start conversation: " ++ reason)%string /\
  sessionPromiseRef c' = sessionPromiseRef c /\
  snd (startLiveConversation env c) = None /\
  (getUserMedia env = Throws reason -> trace c' = trace c).
Proof.
  intros Hc Hthrown.
  assert (Hrec : isRecording c = false).
  { destruct (isRecording c) eqn:E; [|reflexivity].
    exfalso. apply (proj2 (lifecycle_not_closed c)); assumption. }
  unfold startLiveConversation, start_try, thrown, lifecycle in *.
  rewrite Hrec. cbv zeta.
  destruct (getUserMedia env) as [s|e1].
  - destruct (newInputAudioContext env) as [i|e2].
    + destruct (newOutputAudioContext env) as [o|e3].
      * destruct (connect env) as [p|e4]; [discriminate|].
        injection Hthrown as <-. cbn. repeat split. discriminate.
      * injection Hthrown as <-. cbn. repeat split. discriminate.
    + injection Hthrown as <-. cbn. repeat split. discriminate.
  - injection Hthrown as <-. cbn. repeat split.
Qed.

Lemma start_failure_closes_witness :
  let c' := fst (startLiveConversation Scenario.env_denied Scenario.mounted) in
  lifecycle c' = Closed /\
  error c' = Some "Failed to start conversation: Permission denied"%string /\
  trace c' = [].
Proof.
  destruct (start_failure_closes Scenario.env_denied Scenario.mounted
              "Permission denied" eq_refl eq_refl) as (H1 & H2 & _ & _ & H5).
  split; [exact H1|]. split; [exact H2|]. exact (H5 eq_refl).
Defined.

(** C6, as stated, fails: when the input context cannot be created, the
    microphone stream that was acquired just before is not released; its
    tracks are never stopped. *)
Lemma start_failure_keeps_stream :
  let c' :=
    fst (startLiveConversation Scenario.env_no_context Scenario.mounted) in
  thrown Scenario.env_no_context = Some "AudioContext unavailable"%string /\
  lifecycle c' = Closed /\
  In (GetUserMedia 1) (trace c') /\
  ~ In (Release StopTracks 1) (trace c').
Proof.
  cbv zeta. split; [reflexivity|]. split; [reflexivity|].
  split; [now left|].
  cbn. intros [H|[]]. discriminate H.
Qed.

(** ** Playback schedule *)

Lemma chained_app (a b final : Q) (l1 l2 : list (Q * Q)) :
  chained a l1 b -> chained b l2 final -> chained a (l1 ++ l2) final.
Proof.
  revert a. induction l1 as [|[s d] tl IH]; intros a; cbn [chained app].
  - intros Hab H2. now apply (chained_weaken a b).
  - intros (H1 & Hd & H3) H2. repeat split; trivial. now apply IH.
Qed.

Lemma chained_sound (a final : Q) (l : list (Q * Q)) :
  chained a l final ->
  no_overlap l /\ Forall (fun e => (a <= fst e)%Q) l /\ (a <= final)%Q.
Proof.
  revert a. induction l as [|[s d] tl IH]; intros a; cbn [chained].
  - intros H. repeat split; [constructor | exact H].
  - intros (H1 & Hd & H3).
    destruct (IH _ H3) as (Hno & Hall & Hfin).
    split; [|split].
    + cbn [no_overlap]. split; [|exact Hno].
      destruct tl as [|[s2 d2] tl']; [exact I|].
      inversion Hall as [|? ? Hs2 _]; subst. cbn [fst] in Hs2.
      split; lra.
    + constructor; [exact H1|].
      eapply Forall_impl; [|exact Hall].
      intros e He. cbn beta in He. lra.
    + lra.
Qed.

Lemma run_messages_app (ms1 ms2 : list (Q * LiveServerMessage))
  (s : Closure * Component) :
  run_messages (ms1 ++ ms2) s = run_messages ms2 (run_messages ms1 s).
Proof. apply fold_left_app. Qed.

Lemma run_messages_chained (ms : list (Q * LiveServerMessage)) (k : Closure)
  (c : Component) :
  exists new,
    trace (snd (run_messages ms (k, c))) = trace c ++ new /\
    chained (nextStartTime k) (schedule new)
            (nextStartTime (fst (run_messages ms (k, c)))).
Proof.
  revert k c. induction ms as [|[t m] ms IH]; intros k c.
  - exists []. cbn. rewrite app_nil_r. split; [reflexivity | apply Qle_refl].
  - unfold run_messages in *. cbn [fold_left fst snd].
    destruct (onmessage_schedule t m k c) as (new1 & Ht1 & _ & Hc1).
    destruct (onmessage t m k c) as [k1 c1]. cbn [fst snd] in *.
    destruct (IH k1 c1) as (new2 & Ht2 & Hc2).
    exists (new1 ++ new2). split.
    + now rewrite Ht2, Ht1, app_assoc.
    + rewrite schedule_app. now apply (chained_app _ (nextStartTime k1)).
Qed.

(** *** Handlers that interleave *)

Lemma remove_nth_Forall {A : Type} (P : A -> Prop) (i : nat) (l : list A) :
  Forall P l -> Forall P (remove_nth i l).
Proof.
  intros H. revert i. induction H as [|x l Hx Hl IH]; intros i.
  - destruct i; constructor.
  - destruct i as [|i]; cbn [remove_nth]; [exact Hl|].
    constructor; [exact Hx | apply IH].
Qed.

Lemma phase_chained (e : Phase) (k : Closure) (c : Component)
  (waiting : list Pending) :
  Forall positive_duration waiting ->
  let s' := phase e (k, c, waiting) in
  Forall positive_duration (snd s') /\
  exists new,
    trace (snd (fst s')) = trace c ++ new /\
    chained (nextStartTime k) (schedule new) (nextStartTime (fst (fst s'))).
Proof.
  intros Hw. destruct e as [t m|i]; cbn [phase].
  - destruct (transcription_component m k c) as (Htr & _).
    pose proof (transcription_clock m k c) as Hclock.
    destruct (onmessage_transcription m k c) as [k1 c1]. cbn [fst snd] in *.
    destruct (audio_begin_clock t m k1 c1) as (Hle & Hp).
    destruct (onmessage_audio_begin t m k1 c1) as [k2 p]. cbn [fst snd] in *.
    split.
    + apply Forall_app. split; [exact Hw|].
      destruct p; [now constructor | constructor].
    + exists []. rewrite app_nil_r. split; [exact Htr|].
      cbn [schedule flat_map chained]. now rewrite <- Hclock.
  - destruct (nth_error waiting i) as [p|] eqn:Hi.
    + assert (Hp : positive_duration p).
      { apply nth_error_In in Hi.
        exact (proj1 (Forall_forall _ _) Hw p Hi). }
      destruct (audio_resume_schedule p k c Hp) as (new & Ht & _ & Hc).
      destruct (onmessage_audio_resume p k c) as [k1 c1]. cbn [fst snd] in *.
      split; [now apply remove_nth_Forall|].
      now exists new.
    + cbn [fst snd]. split; [exact Hw|].
      exists []. rewrite app_nil_r. split; [reflexivity | apply Qle_refl].
Qed.

Lemma run_phases_chained (es : list Phase) (k : Closure) (c : Component)
  (waiting : list Pending) :
  Forall positive_duration waiting ->
  let s' := run_phases es (k, c, waiting) in
  exists new,
    trace (snd (fst s')) = trace c ++ new /\
    chained (nextStartTime k) (schedule new) (nextStartTime (fst (fst s'))).
Proof.
  revert k c waiting. induction es as [|e es IH]; intros k c waiting Hw.
  - exists []. cbn. rewrite app_nil_r. split; [reflexivity | apply Qle_refl].
  - cbv zeta. unfold run_phases in *. cbn [fold_left].
    destruct (phase_chained e k c waiting Hw) as (Hw1 & new1 & Ht1 & Hc1).
    destruct (phase e (k, c, waiting)) as [[k1 c1] w1]. cbn [fst snd] in *.
    destruct (IH k1 c1 w1 Hw1) as (new2 & Ht2 & Hc2).
    exists (new1 ++ new2). split.
    + now rewrite Ht2, Ht1, app_assoc.
    + rewrite schedule_app. now apply (chained_app _ (nextStartTime k1)).
Qed.

(** The handler that is not interrupted is the interleaving in which the
    handler is resumed at once. *)
Lemma onmessage_as_phases (t : Q) (m : LiveServerMessage) (k : Closure)
  (c : Component) :
  run_phases [Arrives t m; Resumes 0] (k, c, [])
  = (fst (onmessage t m k c), snd (onmessage t m k c), []).
Proof.
  unfold run_phases, onmessage, onmessage_audio. cbn [fold_left phase].
  destruct (onmessage_transcription m k c) as [k1 c1].
  destruct (onmessage_audio_begin t m k1 c1) as [k2 [p|]];
    cbn [phase app nth_error remove_nth fst snd].
  - now destruct (onmessage_audio_resume p k2 c1).
  - reflexivity.
Qed.

(** C1.  The playback path schedules without overlap.  A message that
    carries a decodable segment while the audio resources are in place
    starts one source at max(nextStartTime, current time of the output
    device) and leaves nextStartTime at that start plus the duration of the
    segment.  For every sequence of inbound messages, handled in arrival
    order, the sources started are such that each one starts at or after
    the start of the one before plus its duration, and not before the start
    of the one before; none starts before the clock stood at the beginning,
    and the clock at the end is not before the clock at the beginning.  The
    same holds when the handlers interleave at their [await] in any
    order. *)
Theorem playback_sequential :
  (forall t m k c payload r buf,
      audioData m = Some payload ->
      audioResourcesRef c = Some r ->
      Codec.decodeSegment payload 24000 1 = Some buf ->
      let start := Qmax (nextStartTime k) t in
      trace (snd (onmessage t m k c))
      = trace c ++ [SourceStart (outputCtx r) start buf] /\
      nextStartTime (fst (onmessage t m k c))
      = (start + Codec.duration buf)%Q) /\
  (forall ms k c,
      exists new,
        trace (snd (run_messages ms (k, c))) = trace c ++ new /\
        no_overlap (schedule new) /\
        Forall (fun e => (nextStartTime k <= fst e)%Q) (schedule new) /\
        (nextStartTime k <= nextStartTime (fst (run_messages ms (k, c))))%Q) /\
  (forall es k c,
      exists new,
        trace (snd (fst (run_phases es (k, c, [])))) = trace c ++ new /\
        no_overlap (schedule new) /\
        Forall (fun e => (nextStartTime k <= fst e)%Q) (schedule new) /\
        (nextStartTime k
         <= nextStartTime (fst (fst (run_phases es (k, c, [])))))%Q).
Proof.
  split; [|split].
  - intros t m k c payload r buf Ha Hr Hd. cbv zeta.
    rewrite onmessage_split.
    destruct (transcription_component m k c) as (Htr & _ & Hres).
    pose proof (transcription_clock m k c) as Hclock.
    destruct (onmessage_transcription m k c) as [k1 c1]. cbn [fst snd] in *.
    unfold onmessage_audio, onmessage_audio_begin. rewrite Ha, Hres, Hr.
    cbn [nextStartTime setNextStartTime]. rewrite Hd.
    cbn [option_map onmessage_audio_resume fst snd emit trace nextStartTime
         setNextStartTime].
    now rewrite Htr, Hclock.
  - intros ms k c.
    destruct (run_messages_chained ms k c) as (new & Ht & Hc).
    exists new. split; [exact Ht|]. now apply chained_sound.
  - intros es k c.
    destruct (run_phases_chained es k c [] (Forall_nil _)) as (new & Ht & Hc).
    exists new. split; [exact Ht|]. now apply chained_sound.
Qed.

Lemma playback_sequential_witness :
  exists buf,
    Codec.decodeSegment Scenario.silence 24000 1 = Some buf /\
    trace (snd (onmessage (1 # 2) (Scenario.audioSegment Scenario.silence)
                          Scenario.callbacks Scenario.active))
    = trace Scenario.active ++ [SourceStart 3 (Qmax 0 (1 # 2)) buf] /\
    nextStartTime
      (fst (onmessage (1 # 2) (Scenario.audioSegment Scenario.silence)
                      Scenario.callbacks Scenario.active))
    = (Qmax 0 (1 # 2) + Codec.duration buf)%Q.
Proof.
  eexists. split; [reflexivity|].
  apply (proj1 playback_sequential (1 # 2)%Q
           (Scenario.audioSegment Scenario.silence) Scenario.callbacks
           Scenario.active Scenario.silence
           (mkAudioResources 2 3 1 5)); reflexivity.
Defined.

(** ** Turn aggregation *)

Lemma append_nil_r (s : string) : (s ++ "")%string = s.
Proof. induction s as [|a s IH]; cbn; [reflexivity | now rewrite IH]. Qed.

Lemma append_assoc (s1 s2 s3 : string) :
  ((s1 ++ s2) ++ s3)%string = (s1 ++ (s2 ++ s3))%string.
Proof. induction s1 as [|a s1 IH]; cbn; [reflexivity | now rewrite IH]. Qed.

Lemma concat_deltas_app (l1 l2 : list string) :
  concat_deltas (l1 ++ l2)
  = (concat_deltas l1 ++ concat_deltas l2)%string.
Proof.
  induction l1 as [|d l1 IH]; cbn; [reflexivity|].
  unfold concat_deltas in IH. now rewrite IH, append_assoc.
Qed.

Lemma setTranscriptions_same (k : Closure) :
  setTranscriptions (currentInputTranscription k)
                    (currentOutputTranscription k) k = k.
Proof. now destruct k. Qed.

(** The first half of the handler in terms of what the message carries:
    the deltas are appended first, the completion is looked at after. *)
Lemma transcription_step (m : LiveServerMessage) (k : Closure)
  (c : Component) :
  let inp := (currentInputTranscription k ++ input_delta m)%string in
  let out := (currentOutputTranscription k ++ output_delta m)%string in
  onmessage_transcription m k c
  = if completes m
    then (setTranscriptions "" "" k,
          setConversationHistory (fun prev => prev ++ [mkTurn inp out]) c)
    else (setTranscriptions inp out k, c).
Proof.
  unfold onmessage_transcription, input_delta, output_delta, completes.
  destruct (serverContent m) as [sc|]; cbv zeta.
  - destruct (outputTranscription sc), (inputTranscription sc),
      (turnComplete sc); now rewrite ?append_nil_r.
  - now rewrite !append_nil_r, setTranscriptions_same.
Qed.

Lemma onmessage_completing (t : Q) (m : LiveServerMessage) (k : Closure)
  (c : Component) :
  completes m = true ->
  let s' := onmessage t m k c in
  conversationHistory (snd s')
  = conversationHistory c
      ++ [mkTurn (currentInputTranscription k ++ input_delta m)
                 (currentOutputTranscription k ++ output_delta m)] /\
  currentInputTranscription (fst s') = ""%string /\
  currentOutputTranscription (fst s') = ""%string.
Proof.
  intros Hm. cbv zeta. rewrite onmessage_split.
  destruct (audio_component t m (fst (onmessage_transcription m k c))
              (snd (onmessage_transcription m k c)))
    as (Hh & _ & _ & Hi & Ho).
  rewrite Hh, Hi, Ho.
  pose proof (transcription_step m k c) as Hs. cbv zeta in Hs.
  rewrite Hm in Hs. rewrite Hs. now cbn.
Qed.

Lemma onmessage_accumulating (t : Q) (m : LiveServerMessage) (k : Closure)
  (c : Component) :
  completes m = false ->
  let s' := onmessage t m k c in
  conversationHistory (snd s') = conversationHistory c /\
  currentInputTranscription (fst s')
  = (currentInputTranscription k ++ input_delta m)%string /\
  currentOutputTranscription (fst s')
  = (currentOutputTranscription k ++ output_delta m)%string.
Proof.
  intros Hm. cbv zeta. rewrite onmessage_split.
  destruct (audio_component t m (fst (onmessage_transcription m k c))
              (snd (onmessage_transcription m k c)))
    as (Hh & _ & _ & Hi & Ho).
  rewrite Hh, Hi, Ho.
  pose proof (transcription_step m k c) as Hs. cbv zeta in Hs.
  rewrite Hm in Hs. rewrite Hs. now cbn.
Qed.

Lemma run_messages_accumulating (ms : list (Q * LiveServerMessage))
  (k : Closure) (c : Component) :
  Forall (fun m => completes (snd m) = false) ms ->
  let s' := run_messages ms (k, c) in
  conversationHistory (snd s') = conversationHistory c /\
  currentInputTranscription (fst s')
  = (currentInputTranscription k
     ++ concat_deltas (map (fun m => input_delta (snd m)) ms))%string /\
  currentOutputTranscription (fst s')
  = (currentOutputTranscription k
     ++ concat_deltas (map (fun m => output_delta (snd m)) ms))%string.
Proof.
  intros Hms. revert k c.
  induction Hms as [|[t m] ms Hm _ IH]; intros k c; cbv zeta.
  - cbn. now rewrite !append_nil_r.
  - unfold run_messages in *. cbn [fold_left fst snd map concat_deltas fold_right].
    cbn [snd] in Hm.
    destruct (onmessage_accumulating t m k c Hm) as (Hh & Hi & Ho).
    destruct (onmessage t m k c) as [k1 c1]. cbn [fst snd] in *.
    destruct (IH k1 c1) as (Hh' & Hi' & Ho').
    rewrite Hh', Hi', Ho', Hh, Hi, Ho.
    now rewrite !append_assoc.
Qed.

(** C2.  From empty buffers (as a completion or the start of the session
    leaves them), for every sequence of messages that carry input and
    output deltas in any interleaving and no completion, followed by one
    message with the turnComplete flag: exactly one turn is appended to the
    history, its user field is the concatenation, in arrival order, of the
    input deltas, its model field the concatenation of the output deltas,
    and both buffers are empty afterwards. *)
Theorem turn_aggregation (ms : list (Q * LiveServerMessage)) (t : Q)
  (last : LiveServerMessage) (k : Closure) (c : Component) :
  currentInputTranscription k = ""%string ->
  currentOutputTranscription k = ""%string ->
  Forall (fun m => completes (snd m) = false) ms ->
  completes last = true ->
  let s' := run_messages (ms ++ [(t, last)]) (k, c) in
  conversationHistory (snd s')
  = conversationHistory c
      ++ [mkTurn (concat_deltas (map input_delta (map snd ms ++ [last])))
                 (concat_deltas (map output_delta (map snd ms ++ [last])))] /\
  currentInputTranscription (fst s') = ""%string /\
  currentOutputTranscription (fst s') = ""%string.
Proof.
  intros Hi0 Ho0 Hms Hlast. cbv zeta.
  rewrite run_messages_app.
  destruct (run_messages_accumulating ms k c Hms) as (Hh & Hi & Ho).
  destruct (run_messages ms (k, c)) as [k1 c1]. cbn [fst snd] in *.
  unfold run_messages. cbn [fold_left fst snd].
  destruct (onmessage_completing t last k1 c1 Hlast) as (Hh' & Hi' & Ho').
  rewrite Hh', Hi', Ho', Hh, Hi, Ho, Hi0, Ho0.
  rewrite !map_app, !concat_deltas_app, !map_map. cbn [map concat_deltas fold_right append].
  rewrite !append_nil_r. now repeat split.
Qed.

(** Scenario B of the spec. *)
Lemma turn_aggregation_witness :
  let s' :=
    run_messages
      ([(0, Scenario.inputTranscriptionDelta "hel");
        (0, Scenario.inputTranscriptionDelta "lo");
        (0, Scenario.outputTranscriptionDelta "hi")]
       ++ [(0, Scenario.turnCompleteSignal)])%Q
      (Scenario.callbacks, Scenario.active) in
  conversationHistory (snd s') = [] ++ [mkTurn "hello" "hi"] /\
  currentInputTranscription (fst s') = ""%string /\
  currentOutputTranscription (fst s') = ""%string.
Proof.
  apply (turn_aggregation
           [(0, Scenario.inputTranscriptionDelta "hel");
            (0, Scenario.inputTranscriptionDelta "lo");
            (0, Scenario.outputTranscriptionDelta "hi")]%Q
           0%Q Scenario.turnCompleteSignal Scenario.callbacks
           Scenario.active); try reflexivity.
  repeat constructor.
Defined.

(** C8.  A turnComplete that arrives while both buffers are empty, in a
    message that carries no delta, still appends a turn, with empty user
    and model strings. *)
Theorem empty_turn_recorded (t : Q) (m : LiveServerMessage) (k : Closure)
  (c : Component) :
  completes m = true ->
  input_delta m = ""%string ->
  output_delta m = ""%string ->
  currentInputTranscription k = ""%string ->
  currentOutputTranscription k = ""%string ->
  conversationHistory (snd (onmessage t m k c))
  = conversationHistory c ++ [mkTurn "" ""].
Proof.
  intros Hm Hi Ho Hki Hko.
  destruct (onmessage_completing t m k c Hm) as (Hh & _).
  now rewrite Hh, Hi, Ho, Hki, Hko.
Qed.

Lemma empty_turn_recorded_witness :
  conversationHistory
    (snd (onmessage 0 Scenario.turnCompleteSignal Scenario.callbacks
                    Scenario.active))
  = [] ++ [mkTurn "" ""].
Proof.
  apply (empty_turn_recorded 0 Scenario.turnCompleteSignal
           Scenario.callbacks Scenario.active); reflexivity.
Defined.

(** C10.  A message that carries both a delta and the turnComplete flag
    records a turn that includes its own delta: the turn is the buffers as
    they stood before the message, each followed by the delta that the
    message carries for it. *)
Theorem delta_before_completion (t : Q) (m : LiveServerMessage) (k : Closure)
  (c : Component) :
  completes m = true ->
  conversationHistory (snd (onmessage t m k c))
  = conversationHistory c
      ++ [mkTurn (currentInputTranscription k ++ input_delta m)
                 (currentOutputTranscription k ++ output_delta m)].
Proof.
  intros Hm. now destruct (onmessage_completing t m k c Hm) as (Hh & _).
Qed.

Lemma delta_before_completion_witness :
  conversationHistory
    (snd (onmessage 0 (Scenario.lastDeltaAndComplete "lo")
                    (setTranscriptions "hel" "hi" Scenario.callbacks)
                    Scenario.active))
  = [] ++ [mkTurn ("hel" ++ "lo") ("hi" ++ "")].
Proof.
  apply (delta_before_completion 0 (Scenario.lastDeltaAndComplete "lo")
           (setTranscriptions "hel" "hi" Scenario.callbacks)
           Scenario.active); reflexivity.
Defined.

End LiveFacts.

(* ================================================================== *)
(** * Further properties of the capture encoding *)
(* ================================================================== *)

Module CodecMore.
Import Codec CodecFacts.

(** ** Truncation as floor and ceiling *)

Lemma truncate_nonneg (x : Q) : 0 <= Qnum x -> truncate x = Qfloor x.
Proof.
  destruct x as [n d]. cbn [Qnum]. intros Hn.
  unfold truncate, Qfloor. cbn [Qnum Qden].
  apply Z.quot_div_nonneg; lia.
Qed.

Lemma truncate_nonpos (x : Q) : Qnum x <= 0 -> truncate x = Qceiling x.
Proof.
  destruct x as [n d]. cbn [Qnum]. intros Hn.
  unfold truncate, Qceiling, Qfloor, Qopp. cbn [Qnum Qden].
  rewrite <- (Z.opp_involutive n) at 1.
  rewrite Z.quot_opp_l by lia.
  now rewrite Z.quot_div_nonneg by lia.
Qed.

Lemma truncate_sign (x : Q) :
  (0 <= Qnum x -> 0 <= truncate x) /\ (Qnum x <= 0 -> truncate x <= 0).
Proof.
  unfold truncate. split; intros Hn.
  - apply Z.quot_pos; lia.
  - rewrite <- (Z.quot_0_l (Zpos (Qden x))) by lia.
    apply Z.quot_le_mono; lia.
Qed.

Lemma Qnum_nonneg_le (x y : Q) : (x <= y)%Q -> 0 <= Qnum x -> 0 <= Qnum y.
Proof.
  unfold Qle. intros Hxy Hx.
  assert (0 <= Qnum y * Zpos (Qden x)) by nia.
  nia.
Qed.

Lemma truncate_monotone (x y : Q) :
  (x <= y)%Q -> truncate x <= truncate y.
Proof.
  intros Hxy.
  destruct (Z.le_gt_cases 0 (Qnum x)) as [Hx | Hx].
  - rewrite !truncate_nonneg;
      [now apply Qfloor_resp_le | now apply (Qnum_nonneg_le x) | exact Hx].
  - destruct (Z.le_gt_cases (Qnum y) 0) as [Hy | Hy].
    + rewrite !truncate_nonpos by lia. now apply Qceiling_resp_le.
    + pose proof (proj2 (truncate_sign x) ltac:(lia)).
      pose proof (proj1 (truncate_sign y) ltac:(lia)). lia.
Qed.

(** ** The size of a frame *)

(** X1.  The bytes handed to [encode] for a frame of [l] samples are
    [2 * l] bytes, every one of them between 0 and 255, whatever the
    samples are. *)
Theorem frame_bytes (inputData : list Q) :
  List.length (Uint8Array_of_Int16Array (int16_of_samples inputData))
  = (2 * List.length inputData)%nat /\
  Forall is_byte (Uint8Array_of_Int16Array (int16_of_samples inputData)).
Proof.
  split; [|apply Uint8Array_bytes].
  unfold int16_of_samples, Uint8Array_of_Int16Array.
  induction inputData as [|s l IH]; [reflexivity|].
  cbn [map flat_map bytes_of_int16 app List.length]. rewrite IH. lia.
Qed.

(** ** Order and sign *)

(** X2.  On samples that do not wrap, the conversion keeps the order: a
    sample that is not larger is stored as a 16-bit value that is not
    larger. *)
Theorem int16_of_sample_monotone (s1 s2 : Q) :
  in_range s1 -> in_range s2 -> (s1 <= s2)%Q ->
  int16_of_sample s1 <= int16_of_sample s2.
Proof.
  intros H1 H2 Hle. unfold int16_of_sample.
  rewrite !ToInt16_in_range by now apply truncate_in_range.
  apply truncate_monotone.
  apply Qmult_le_compat_r; [exact Hle | discriminate].
Qed.

Lemma int16_of_sample_monotone_witness :
  int16_of_sample (-1 # 3) <= int16_of_sample (1 # 7).
Proof.
  apply int16_of_sample_monotone; unfold in_range, Qlt, Qle; cbn; lia.
Defined.

(** X3.  The conversion truncates toward zero, so it is odd on the open
    interval (-1, 1): the negated sample is stored as the negated value;
    and a sample of magnitude below one step (1/32768) is stored as 0,
    whatever its sign. *)
Theorem int16_of_sample_odd (s : Q) :
  (-1 < s)%Q -> (s < 1)%Q ->
  int16_of_sample (- s) = - int16_of_sample s /\
  ((-1 # 32768 < s)%Q -> (s < 1 # 32768)%Q -> int16_of_sample s = 0).
Proof.
  intros Hlo Hhi.
  assert (Hs : in_range s).
  { unfold in_range, Qlt in *. cbn [Qnum Qden] in *. lia. }
  assert (Hs' : in_range (- s)).
  { unfold in_range, Qlt in *. cbn [Qnum Qden Qopp] in *. lia. }
  unfold int16_of_sample.
  rewrite !ToInt16_in_range by now apply truncate_in_range.
  rewrite !truncate_scaled. cbn [Qopp Qnum Qden]. split.
  - rewrite Z.mul_opp_l. apply Z.quot_opp_l. lia.
  - intros Hl Hh. unfold Qlt in Hl, Hh. cbn [Qnum Qden] in Hl, Hh.
    destruct (Z.le_gt_cases 0 (Qnum s)) as [Hn | Hn].
    + apply Z.quot_small. lia.
    + rewrite <- (Z.opp_involutive (Qnum s * 32768)).
      rewrite Z.quot_opp_l by lia.
      rewrite Z.quot_small by lia. reflexivity.
Qed.

Lemma int16_of_sample_odd_witness :
  int16_of_sample (- (1 # 3)) = - int16_of_sample (1 # 3) /\
  int16_of_sample (-1 # 65536) = 0.
Proof.
  split.
  - apply (int16_of_sample_odd (1 # 3)); reflexivity.
  - apply (int16_of_sample_odd (-1 # 65536)); reflexivity.
Defined.

End CodecMore.

(* ================================================================== *)
(** * Further properties of the component *)
(* ================================================================== *)

Module LiveMore.
Import LiveFeature Observed LiveFacts.

(** ** Errors of the connection *)

Lemma error_text_not_empty (message : option string) :
  error_text message <> ""%string.
Proof. destruct message as [[|a m]|]; cbn; discriminate. Qed.

(** X4.  A connection error tears the session down and tells the user: after
    [onerror] the component is closed with both refs null, the error
    message is "Live connection error: " followed by the message of the
    error, or by a fixed text when the error has no message or an empty
    one, and the conversation history is kept. *)
Theorem onerror_closes (message : option string) (c : Component) :
  let c' := onerror message c in
  lifecycle c' = Closed /\
  sessionPromiseRef c' = None /\
  audioResourcesRef c' = None /\
  error c'
  = Some ("Live connection error: " ++ error_text message)%string /\
  error_text message <> ""%string /\
  conversationHistory c' = conversationHistory c.
Proof.
  cbv zeta. unfold onerror.
  set (c1 := emit ConsoleError (setError _ c)).
  destruct (stop_refs c1) as (Hrec & Hp & Hr).
  destruct (stop_keeps c1) as (He & Hh & _).
  split; [unfold lifecycle; now rewrite Hrec|].
  split; [exact Hp|]. split; [exact Hr|].
  split; [now rewrite He|].
  split; [apply error_text_not_empty|].
  now rewrite Hh.
Qed.

(** ** A whole session *)

Ltac session_cases c :=
  destruct c as [rec err hist sp ar closed tr];
  unfold lifecycle, state_not_closed in *;
  cbn [isRecording audioResourcesRef closedContexts trace] in *.

(** X5.  A session that is started, opens and is stopped releases what it
    acquired, each thing once: the trace of the three calls is the four
    acquisitions, the script processor, and then the five release steps on
    exactly those handles. *)
Theorem session_releases_everything (c : Component) (s i o p node : Handle) :
  lifecycle c = Closed ->
  state_not_closed c i = true ->
  state_not_closed c o = true ->
  let k := mkClosure "" "" 0 s i o in
  let started := fst (startLiveConversation (env_returns s i o p) c) in
  let opened := onopen node k started in
  snd (startLiveConversation (env_returns s i o p) c) = Some k /\
  lifecycle opened = Active /\
  lifecycle (stopLiveConversation opened) = Closed /\
  trace (stopLiveConversation opened)
  = trace c
      ++ [GetUserMedia s; NewAudioContext InputContext i 16000;
          NewAudioContext OutputContext o 24000; Connect p;
          CreateScriptProcessor i node;
          Release CloseSession p; Release DisconnectProcessor node;
          Release StopTracks s; Release CloseInputContext i;
          Release CloseOutputContext o].
Proof.
  intros Hc Hi Ho. session_cases c.
  destruct rec; [destruct ar; discriminate|].
  unfold startLiveConversation, start_try, env_returns, onopen,
    stopLiveConversation, state_not_closed.
  cbn. rewrite Hi. cbn. rewrite Ho. cbn.
  rewrite <- !app_assoc. now repeat split.
Qed.

Lemma session_releases_everything_witness :
  trace (stopLiveConversation Scenario.active)
  = [] ++ [GetUserMedia 1; NewAudioContext InputContext 2 16000;
           NewAudioContext OutputContext 3 24000; Connect 4;
           CreateScriptProcessor 2 5;
           Release CloseSession 4; Release DisconnectProcessor 5;
           Release StopTracks 1; Release CloseInputContext 2;
           Release CloseOutputContext 3].
Proof.
  apply (session_releases_everything Scenario.mounted 1 2 3 4 5);
    reflexivity.
Defined.

(** X6.  A stop that comes before the session has opened only asks for the
    session to be closed: the audio resources are registered by [onopen],
    so the microphone stream and the two contexts that the start acquired
    are not released by this stop. *)
Theorem stop_before_open (c : Component) (s i o p : Handle) :
  lifecycle c = Closed ->
  audioResourcesRef c = None ->
  let started := fst (startLiveConversation (env_returns s i o p) c) in
  lifecycle started = Starting /\
  lifecycle (stopLiveConversation started) = Closed /\
  trace (stopLiveConversation started)
  = trace c
      ++ [GetUserMedia s; NewAudioContext InputContext i 16000;
          NewAudioContext OutputContext o 24000; Connect p;
          Release CloseSession p].
Proof.
  intros Hc Hr. session_cases c. subst ar.
  destruct rec; [discriminate|].
  unfold startLiveConversation, start_try, env_returns, stopLiveConversation.
  cbn. rewrite <- !app_assoc. now repeat split.
Qed.

Lemma stop_before_open_witness :
  trace (stopLiveConversation Scenario.started)
  = [] ++ [GetUserMedia 1; NewAudioContext InputContext 2 16000;
           NewAudioContext OutputContext 3 24000; Connect 4;
           Release CloseSession 4].
Proof.
  apply (stop_before_open Scenario.mounted 1 2 3 4); reflexivity.
Defined.

(** X7.  When the session opens after such an early stop and is then
    closed, the close event releases the processor, the stream and the two
    contexts: over the whole run every release step has happened once, on
    the handles of this session. *)
Theorem late_open_is_released (c : Component) (s i o p node : Handle) :
  lifecycle c = Closed ->
  audioResourcesRef c = None ->
  state_not_closed c i = true ->
  state_not_closed c o = true ->
  let k := mkClosure "" "" 0 s i o in
  let started := fst (startLiveConversation (env_returns s i o p) c) in
  let final := onclose (onopen node k (stopLiveConversation started)) in
  lifecycle final = Closed /\
  audioResourcesRef final = None /\
  trace final
  = trace c
      ++ [GetUserMedia s; NewAudioContext InputContext i 16000;
          NewAudioContext OutputContext o 24000; Connect p;
          Release CloseSession p;
          CreateScriptProcessor i node;
          Release DisconnectProcessor node; Release StopTracks s;
          Release CloseInputContext i; Release CloseOutputContext o].
Proof.
  intros Hc Hr Hi Ho. session_cases c. subst ar.
  destruct rec; [discriminate|].
  unfold startLiveConversation, start_try, env_returns, onopen, onclose,
    stopLiveConversation, state_not_closed.
  cbn. rewrite Hi. cbn. rewrite Ho. cbn.
  rewrite <- !app_assoc. now repeat split.
Qed.

Lemma late_open_is_released_witness :
  trace (onclose (onopen 5 Scenario.callbacks
                         (stopLiveConversation Scenario.started)))
  = [] ++ [GetUserMedia 1; NewAudioContext InputContext 2 16000;
           NewAudioContext OutputContext 3 24000; Connect 4;
           Release CloseSession 4;
           CreateScriptProcessor 2 5;
           Release DisconnectProcessor 5; Release StopTracks 1;
           Release CloseInputContext 2; Release CloseOutputContext 3].
Proof.
  apply (late_open_is_released Scenario.mounted 1 2 3 4 5); reflexivity.
Defined.

(** ** The outcome of a start *)



(** ** The history *)

Lemma step_history (e : Event) (k : Closure) (c : Component) :
  exists turns,
    conversationHistory (snd (step e (k, c)))
    = conversationHistory c ++ turns.
Proof.
  destruct e as [|node|inputData|t m|msg|]; cbn [step snd].
  - exists []. rewrite app_nil_r. apply stop_keeps.
  - exists []. now rewrite app_nil_r.
  - exists []. rewrite app_nil_r. unfold onaudioprocess.
    now destruct (sessionPromiseRef c).
  - destruct (completes m) eqn:Hm.
    + destruct (onmessage_completing t m k c Hm) as (Hh & _).
      eexists. exact Hh.
    + destruct (onmessage_accumulating t m k c Hm) as (Hh & _).
      exists []. now rewrite app_nil_r.
  - exists []. rewrite app_nil_r. unfold onerror.
    now rewrite (proj1 (proj2 (stop_keeps _))).
  - exists []. rewrite app_nil_r. apply stop_keeps.
Qed.

(** X9.  Within a session the history is append-only: whatever events
    follow one another (messages, capture callbacks, open, stop, error,
    close), the history afterwards is the history before, followed by the
    turns that were added; no turn is removed or changed, not even by the
    teardown. *)
Theorem history_append_only (es : list Event) (k : Closure) (c : Component) :
  exists turns,
    conversationHistory (snd (run es (k, c)))
    = conversationHistory c ++ turns.
Proof.
  revert k c. induction es as [|e es IH]; intros k c.
  - exists []. cbn. now rewrite app_nil_r.
  - unfold run in *. cbn [fold_left].
    destruct (step_history e k c) as (t1 & H1).
    destruct (step e (k, c)) as [k1 c1]. cbn [snd] in *.
    destruct (IH k1 c1) as (t2 & H2).
    exists (t1 ++ t2). now rewrite H2, H1, app_assoc.
Qed.

(** What a sequence of messages adds to the history, and how the text of
    the deltas is spread over the added turns and the buffers. *)
Lemma run_messages_turns (ms : list (Q * LiveServerMessage)) (k : Closure)
  (c : Component) :
  let s' := run_messages ms (k, c) in
  exists turns,
    conversationHistory (snd s') = conversationHistory c ++ turns /\
    List.length turns = completions ms /\
    (user_text turns ++ currentInputTranscription (fst s'))%string
    = (currentInputTranscription k ++ input_deltas ms)%string /\
    (model_text turns ++ currentOutputTranscription (fst s'))%string
    = (currentOutputTranscription k ++ output_deltas ms)%string.
Proof.
  revert k c. induction ms as [|[t m] ms IH]; intros k c; cbv zeta.
  - exists []. cbn. now rewrite app_nil_r, !append_nil_r.
  - unfold run_messages in *. cbn [fold_left fst snd].
    unfold completions, input_deltas, output_deltas in *.
    cbn [filter map fst snd concat_deltas fold_right].
    destruct (completes m) eqn:Hm.
    + destruct (onmessage_completing t m k c Hm) as (Hh & Hi & Ho).
      destruct (onmessage t m k c) as [k1 c1]. cbn [fst snd] in *.
      destruct (IH k1 c1) as (turns & Hh' & Hn & Hu & Hv).
      rewrite Hi in Hu. rewrite Ho in Hv. cbn [append] in Hu, Hv.
      eexists (_ :: turns). split; [|split; [|split]].
      * rewrite Hh', Hh, <- app_assoc. reflexivity.
      * cbn [List.length]. now rewrite Hn.
      * unfold user_text in *. cbn [map user concat_deltas fold_right].
        fold (concat_deltas (map user turns)).
        now rewrite !append_assoc, Hu.
      * unfold model_text in *. cbn [map model concat_deltas fold_right].
        fold (concat_deltas (map model turns)).
        now rewrite !append_assoc, Hv.
    + destruct (onmessage_accumulating t m k c Hm) as (Hh & Hi & Ho).
      destruct (onmessage t m k c) as [k1 c1]. cbn [fst snd] in *.
      destruct (IH k1 c1) as (turns & Hh' & Hn & Hu & Hv).
      exists turns. split; [|split; [|split]].
      * now rewrite Hh', Hh.
      * exact Hn.
      * now rewrite Hu, Hi, append_assoc.
      * now rewrite Hv, Ho, append_assoc.
Qed.

(** X10.  For every sequence of inbound messages, as many turns are added
    to the history as there are messages with the turnComplete flag,
    whatever the messages carry otherwise. *)
Theorem one_turn_per_completion (ms : list (Q * LiveServerMessage))
  (k : Closure) (c : Component) :
  List.length (conversationHistory (snd (run_messages ms (k, c))))
  = (List.length (conversationHistory c) + completions ms)%nat.
Proof.
  destruct (run_messages_turns ms k c) as (turns & Hh & Hn & _).
  now rewrite Hh, length_app, Hn.
Qed.

(** X11.  No transcription text is lost, repeated or reordered: for every
    sequence of inbound messages, the user text of the added turns followed
    by what is left in the input buffer is what the input buffer held
    before followed by all the input deltas in arrival order, and the same
    holds for the model text and the output deltas. *)
Theorem transcription_text_is_kept (ms : list (Q * LiveServerMessage))
  (k : Closure) (c : Component) :
  let s' := run_messages ms (k, c) in
  exists turns,
    conversationHistory (snd s') = conversationHistory c ++ turns /\
    (user_text turns ++ currentInputTranscription (fst s'))%string
    = (currentInputTranscription k ++ input_deltas ms)%string /\
    (model_text turns ++ currentOutputTranscription (fst s'))%string
    = (currentOutputTranscription k ++ output_deltas ms)%string.
Proof.
  destruct (run_messages_turns ms k c) as (turns & Hh & _ & Hu & Hv).
  now exists turns.
Qed.

(** ** Capture while the session is live *)

Lemma step_live (e : Event) (k : Closure) (c : Component) (p : Handle) :
  sessionPromiseRef c = Some p ->
  is_teardown e = false ->
  sessionPromiseRef (snd (step e (k, c))) = Some p /\
  sends (trace (snd (step e (k, c))))
  = sends (trace c)
      ++ map (fun d => SendRealtimeInput p (Codec.encodeFrame d)) (frames [e]).
Proof.
  intros Hp He.
  destruct e as [|node|inputData|t m|msg|]; try discriminate He;
    cbn [step snd frames flat_map map app].
  - split; [exact Hp|]. rewrite app_nil_r.
    unfold onopen. cbn [setAudioResourcesRef trace].
    now apply (sends_emit _ c).
  - unfold onaudioprocess. rewrite Hp. split; [exact Hp|].
    cbn [emit trace]. now rewrite sends_app.
  - destruct (onmessage_refs t m k c) as (Hp' & _).
    destruct (onmessage_schedule t m k c) as (new & Ht & Hs & _).
    split; [congruence|].
    now rewrite Ht, sends_app, Hs.
Qed.

(** X12.  While the session reference is set and nothing tears the session
    down, every capture callback forwards exactly one frame, the encoding
    of its samples, to that session: the frames sent during a run are the
    encoded frames of its capture callbacks, in capture order; inbound
    messages and the open event send nothing. *)
Theorem frames_sent_in_order (es : list Event) (k : Closure) (c : Component)
  (p : Handle) :
  sessionPromiseRef c = Some p ->
  forallb (fun e => negb (is_teardown e)) es = true ->
  sends (trace (snd (run es (k, c))))
  = sends (trace c)
      ++ map (fun d => SendRealtimeInput p (Codec.encodeFrame d)) (frames es).
Proof.
  revert k c. induction es as [|e es IH]; intros k c Hp Hes.
  - cbn. now rewrite app_nil_r.
  - cbn [forallb] in Hes. apply andb_true_iff in Hes.
    destruct Hes as [He Hes]. apply negb_true_iff in He.
    unfold run in *. cbn [fold_left].
    destruct (step_live e k c p Hp He) as (Hp1 & Hs1).
    destruct (step e (k, c)) as [k1 c1]. cbn [snd] in *.
    rewrite (IH k1 c1 Hp1 Hes), Hs1, <- app_assoc, <- map_app.
    unfold frames. now rewrite <- flat_map_app.
Qed.

Lemma frames_sent_in_order_witness :
  sends (trace (snd (run [EvOpen 5; EvAudioProcess [0; 1 # 2];
                          EvMessage 0 Scenario.turnCompleteSignal;
                          EvAudioProcess [1 # 4]]%Q
                         (Scenario.callbacks, Scenario.started))))
  = [] ++ [SendRealtimeInput 4 (Codec.encodeFrame [0; 1 # 2]%Q);
           SendRealtimeInput 4 (Codec.encodeFrame [1 # 4]%Q)].
Proof.
  apply (frames_sent_in_order
           [EvOpen 5; EvAudioProcess [0; 1 # 2];
            EvMessage 0 Scenario.turnCompleteSignal;
            EvAudioProcess [1 # 4]]%Q
           Scenario.callbacks Scenario.started 4); reflexivity.
Defined.

(** ** Playback needs the audio resources *)

Lemma onmessage_without_resources (t : Q) (m : LiveServerMessage)
  (k : Closure) (c : Component) :
  audioResourcesRef c = None ->
  onmessage t m k c = onmessage_transcription m k c.
Proof.
  intros Hr. rewrite onmessage_split.
  destruct (transcription_component m k c) as (_ & _ & Hr').
  destruct (onmessage_transcription m k c) as [k1 c1]. cbn [fst snd] in *.
  unfold onmessage_audio, onmessage_audio_begin.
  rewrite Hr', Hr. now destruct (audioData m).
Qed.

Lemma step_without_resources (e : Event) (k : Closure) (c : Component) :
  audioResourcesRef c = None ->
  is_open e = false ->
  audioResourcesRef (snd (step e (k, c))) = None /\
  schedule (trace (snd (step e (k, c)))) = schedule (trace c) /\
  nextStartTime (fst (step e (k, c))) = nextStartTime k.
Proof.
  intros Hr He.
  destruct e as [|node|inputData|t m|msg|]; try discriminate He;
    cbn [step fst snd].
  - split; [apply stop_refs|]. split; [|reflexivity].
    destruct (stop_trace c) as (released & -> & _ & Hs & _).
    rewrite schedule_app, Hs. apply app_nil_r.
  - unfold onaudioprocess.
    destruct (sessionPromiseRef c); cbn [emit audioResourcesRef trace].
    + split; [exact Hr|]. split; [|reflexivity].
      rewrite schedule_app. apply app_nil_r.
    + now repeat split.
  - rewrite (onmessage_without_resources t m k c Hr).
    destruct (transcription_component m k c) as (Ht & _ & Hr').
    split; [congruence|]. split; [now rewrite Ht|].
    apply transcription_clock.
  - unfold onerror. split; [apply stop_refs|]. split; [|reflexivity].
    destruct (stop_trace (emit ConsoleError
                (setError (Some ("Live connection error: "
                                 ++ error_text msg)%string) c)))
      as (released & -> & _ & Hs & _).
    rewrite schedule_app, Hs. cbn [emit setError trace].
    rewrite schedule_app. cbn. now rewrite !app_nil_r.
  - unfold onclose. split; [apply stop_refs|]. split; [|reflexivity].
    destruct (stop_trace c) as (released & -> & _ & Hs & _).
    rewrite schedule_app, Hs. apply app_nil_r.
Qed.

Lemma run_without_resources (es : list Event) (k : Closure) (c : Component) :
  audioResourcesRef c = None ->
  forallb (fun e => negb (is_open e)) es = true ->
  schedule (trace (snd (run es (k, c)))) = schedule (trace c) /\
  nextStartTime (fst (run es (k, c))) = nextStartTime k.
Proof.
  revert k c. induction es as [|e es IH]; intros k c Hr Hes; [now split|].
  cbn [forallb] in Hes. apply andb_true_iff in Hes.
  destruct Hes as [He Hes]. apply negb_true_iff in He.
  unfold run in *. cbn [fold_left].
  destruct (step_without_resources e k c Hr He) as (Hr1 & Hs1 & Hk1).
  destruct (step e (k, c)) as [k1 c1]. cbn [fst snd] in *.
  destruct (IH k1 c1 Hr1 Hes) as (Hs2 & Hk2).
  split; congruence.
Qed.

(** X13.  After [stopLiveConversation], audio that still arrives is not
    played: as long as no open event registers audio resources again,
    whatever messages, capture callbacks, errors, closes and stops follow,
    no source is started and the playback clock stays where it was. *)
Theorem no_playback_after_stop (es : list Event) (k : Closure)
  (c : Component) :
  forallb (fun e => negb (is_open e)) es = true ->
  let s' := run es (k, stopLiveConversation c) in
  schedule (trace (snd s')) = schedule (trace c) /\
  nextStartTime (fst s') = nextStartTime k.
Proof.
  intros Hes. cbv zeta.
  pose proof (proj2 (proj2 (stop_refs c))) as Hr.
  destruct (run_without_resources es k _ Hr Hes) as (Hs & Hk).
  split; [|exact Hk].
  rewrite Hs.
  destruct (stop_trace c) as (released & -> & _ & Hrel & _).
  rewrite schedule_app, Hrel. apply app_nil_r.
Qed.

Lemma no_playback_after_stop_witness :
  let s' :=
    run [EvMessage (1 # 2) (Scenario.audioSegment Scenario.silence); EvClose]
        (Scenario.callbacks, stopLiveConversation Scenario.active) in
  schedule (trace (snd s')) = [] /\
  nextStartTime (fst s') = 0%Q.
Proof.
  apply (no_playback_after_stop
           [EvMessage (1 # 2) (Scenario.audioSegment Scenario.silence);
            EvClose] Scenario.callbacks Scenario.active).
  reflexivity.
Defined.

(** ** Gapless playback *)

Lemma contiguous_eq (a b final : Q) (l : list (Q * Q)) :
  (a == b)%Q -> contiguous a l final -> contiguous b l final.
Proof.
  intros Hab. destruct l as [|[s d] tl]; cbn [contiguous].
  - intros H. now rewrite <- Hab.
  - intros [H1 H2]. split; [now rewrite <- Hab | exact H2].
Qed.

Lemma contiguous_app (a b final : Q) (l1 l2 : list (Q * Q)) :
  contiguous a l1 b -> contiguous b l2 final ->
  contiguous a (l1 ++ l2) final.
Proof.
  revert a. induction l1 as [|[s d] tl IH]; intros a; cbn [contiguous app].
  - intros Hab H2. apply (contiguous_eq b a); [now symmetry | exact H2].
  - intros [H1 H3] H2. split; [exact H1 | now apply IH].
Qed.

(** A message that arrives while the clock is ahead of the device time
    starts its source, if any, at the clock. *)
Lemma onmessage_contiguous (t : Q) (m : LiveServerMessage) (k : Closure)
  (c : Component) :
  (t <= nextStartTime k)%Q ->
  exists new,
    trace (snd (onmessage t m k c)) = trace c ++ new /\
    contiguous (nextStartTime k) (schedule new)
               (nextStartTime (fst (onmessage t m k c))).
Proof.
  intros Ht. rewrite onmessage_split.
  destruct (transcription_component m k c) as (Htr & _).
  pose proof (transcription_clock m k c) as Hclock.
  destruct (onmessage_transcription m k c) as [k1 c1]. cbn [fst snd] in *.
  rewrite <- Hclock in *. rewrite <- Htr. clear Hclock Htr.
  unfold onmessage_audio, onmessage_audio_begin.
  destruct (audioData m) as [payload|];
    [|exists []; cbn; rewrite app_nil_r; split; reflexivity].
  destruct (audioResourcesRef c1) as [r|];
    [|exists []; cbn; rewrite app_nil_r; split; reflexivity].
  cbn [nextStartTime setNextStartTime].
  destruct (Codec.decodeSegment payload 24000 1) as [buf|];
    cbn [option_map onmessage_audio_resume fst snd emit trace nextStartTime
         setNextStartTime].
  - eexists. split; [reflexivity|].
    cbn [schedule flat_map scheduled_of app contiguous].
    split; [now apply Q.max_l | reflexivity].
  - exists []. rewrite app_nil_r. split; [reflexivity|].
    cbn [schedule flat_map contiguous]. symmetry. now apply Q.max_l.
Qed.

(** X14.  Segments that arrive ahead of their playback time are queued
    without gaps: when every message of a sequence arrives no later than
    the playback clock stood at the beginning, the first source starts at
    that clock, every further source starts at the end of the one before,
    and the clock ends at the end of the last one. *)
Theorem burst_is_gapless (ms : list (Q * LiveServerMessage)) (k : Closure)
  (c : Component) :
  Forall (fun m => (fst m <= nextStartTime k)%Q) ms ->
  exists new,
    trace (snd (run_messages ms (k, c))) = trace c ++ new /\
    contiguous (nextStartTime k) (schedule new)
               (nextStartTime (fst (run_messages ms (k, c)))).
Proof.
  intros Hms. revert k c Hms.
  induction ms as [|[t m] ms IH]; intros k c Hms.
  - exists []. cbn. rewrite app_nil_r. split; reflexivity.
  - inversion Hms as [|? ? Ht Hrest]; subst. cbn [fst] in Ht.
    unfold run_messages in *. cbn [fold_left fst snd].
    destruct (onmessage_contiguous t m k c Ht) as (new1 & Ht1 & Hc1).
    destruct (onmessage_schedule t m k c) as (new1' & _ & _ & Hch).
    apply chained_sound in Hch. destruct Hch as (_ & _ & Hle).
    destruct (onmessage t m k c) as [k1 c1]. cbn [fst snd] in *.
    assert (Hrest' : Forall (fun m => (fst m <= nextStartTime k1)%Q) ms).
    { eapply Forall_impl; [|exact Hrest]. intros a Ha. cbn beta in Ha. lra. }
    destruct (IH k1 c1 Hrest') as (new2 & Ht2 & Hc2).
    exists (new1 ++ new2). split.
    + now rewrite Ht2, Ht1, app_assoc.
    + rewrite schedule_app.
      now apply (contiguous_app _ (nextStartTime k1)).
Qed.

Lemma burst_is_gapless_witness :
  exists new,
    trace (snd (run_messages
                  [(0, Scenario.audioSegment Scenario.silence);
                   (0, Scenario.audioSegment Scenario.silence)]%Q
                  (Scenario.callbacks, Scenario.active)))
    = trace Scenario.active ++ new /\
    contiguous 0 (schedule new)
      (nextStartTime
         (fst (run_messages
                 [(0, Scenario.audioSegment Scenario.silence);
                  (0, Scenario.audioSegment Scenario.silence)]%Q
                 (Scenario.callbacks, Scenario.active)))).
Proof.
  apply (burst_is_gapless
           [(0, Scenario.audioSegment Scenario.silence);
            (0, Scenario.audioSegment Scenario.silence)]%Q
           Scenario.callbacks Scenario.active).
  repeat constructor; apply Qle_refl.
Defined.

End LiveMore.

(* ================================================================== *)
(** * Properties of the earlier version *)
(* ================================================================== *)

Module LegacyFacts.
Import LiveFeature Observed.

(** Evaluation of the earlier component on a component whose fields are
    known, leaving the trace and the [state] tests as they are. *)
Ltac legacy_eval :=
  lazy beta iota zeta delta
    [Legacy.stopLiveConversation Legacy.startLiveConversation
     Legacy.start_catch Legacy.state_not_closed Legacy.emit
     Legacy.setIsRecording Legacy.setError Legacy.setConversationHistory
     Legacy.setSessionPromiseRef Legacy.setInputAudioContextRef
     Legacy.setOutputAudioContextRef Legacy.setMicStreamRef
     Legacy.setProcessorNodeRef Legacy.isRecording Legacy.error
     Legacy.conversationHistory Legacy.sessionPromiseRef
     Legacy.inputAudioContextRef Legacy.outputAudioContextRef
     Legacy.micStreamRef Legacy.processorNodeRef Legacy.closedContexts
     Legacy.trace env_returns getUserMedia newInputAudioContext
     newOutputAudioContext connect fst snd negb].

Ltac legacy_cases c :=
  destruct c as [rec err hist [p|] [i|] [o|] [s|] [n|] closed tr];
  legacy_eval;
  repeat (match goal with
          | |- context [existsb ?f ?l] => destruct (existsb f l)
          end; legacy_eval).

Lemma legacy_stop_refs (c : Legacy.Component) :
  Legacy.isRecording (Legacy.stopLiveConversation c) = false /\
  Legacy.sessionPromiseRef (Legacy.stopLiveConversation c) = None /\
  Legacy.micStreamRef (Legacy.stopLiveConversation c) = None /\
  Legacy.processorNodeRef (Legacy.stopLiveConversation c) = None.
Proof. legacy_cases c; now repeat split. Qed.

(** After a stop a context ref that is still set is the ref of a closed
    context. *)
Lemma legacy_stop_contexts (c : Legacy.Component) :
  match Legacy.inputAudioContextRef (Legacy.stopLiveConversation c) with
  | Some i =>
      Legacy.state_not_closed (Legacy.stopLiveConversation c) i = false
  | None => True
  end /\
  match Legacy.outputAudioContextRef (Legacy.stopLiveConversation c) with
  | Some o =>
      Legacy.state_not_closed (Legacy.stopLiveConversation c) o = false
  | None => True
  end.
Proof.
  destruct c as [rec err hist [p|] [i|] [o|] [s|] [n|] closed tr];
    legacy_eval;
    try (destruct (existsb (Nat.eqb i) closed) eqn:Ei; legacy_eval);
    try (destruct (existsb (Nat.eqb o) closed) eqn:Eo; legacy_eval);
    rewrite ?Ei, ?Eo; now split.
Qed.

(** A stop on a component that holds nothing to release only resets the
    flag. *)
Lemma legacy_stop_settled (c : Legacy.Component) :
  Legacy.sessionPromiseRef c = None ->
  Legacy.processorNodeRef c = None ->
  Legacy.micStreamRef c = None ->
  match Legacy.inputAudioContextRef c with
  | Some i => Legacy.state_not_closed c i = false
  | None => True
  end ->
  match Legacy.outputAudioContextRef c with
  | Some o => Legacy.state_not_closed c o = false
  | None => True
  end ->
  Legacy.stopLiveConversation c = Legacy.setIsRecording false c.
Proof.
  destruct c as [rec err hist sp ic oc ms pn closed tr].
  cbn [Legacy.sessionPromiseRef Legacy.processorNodeRef Legacy.micStreamRef
       Legacy.inputAudioContextRef Legacy.outputAudioContextRef].
  intros -> -> -> Hi Ho.
  destruct ic as [i|], oc as [o|];
    unfold Legacy.state_not_closed in Hi, Ho;
    cbn [Legacy.closedContexts] in Hi, Ho;
    try apply negb_false_iff in Hi; try apply negb_false_iff in Ho;
    legacy_eval; rewrite ?Hi; legacy_eval; rewrite ?Ho; legacy_eval;
    reflexivity.
Qed.

Lemma legacy_stop_stop (c : Legacy.Component) :
  Legacy.stopLiveConversation (Legacy.stopLiveConversation c)
  = Legacy.stopLiveConversation c.
Proof.
  destruct (legacy_stop_refs c) as (Hrec & Hp & Hm & Hn).
  destruct (legacy_stop_contexts c) as (Hi & Ho).
  rewrite legacy_stop_settled by assumption.
  destruct (Legacy.stopLiveConversation c). cbn in Hrec. now subst.
Qed.

Lemma legacy_stop_trace (c : Legacy.Component) :
  exists released,
    Legacy.trace (Legacy.stopLiveConversation c)
    = Legacy.trace c ++ released /\
    forall step, (releases step released <= 1)%nat.
Proof.
  legacy_cases c;
    match goal with
    | |- exists r, ?t = ?t ++ r /\ _ => exists []; rewrite app_nil_r
    | |- _ => eexists; rewrite <- ?app_assoc
    end;
    (split; [reflexivity|]);
    intros []; cbn; lia.
Qed.

(** X15.  The teardown of the earlier version is idempotent as well: a
    second [stopLiveConversation] changes nothing, trace included, even
    though a context that was already closed keeps its ref; and the first
    one performs each release step at most once and leaves the session, the
    stream and the processor refs null. *)
Theorem legacy_stop_idempotent (c : Legacy.Component) :
  Legacy.stopLiveConversation (Legacy.stopLiveConversation c)
  = Legacy.stopLiveConversation c /\
  Legacy.isRecording (Legacy.stopLiveConversation c) = false /\
  Legacy.sessionPromiseRef (Legacy.stopLiveConversation c) = None /\
  Legacy.micStreamRef (Legacy.stopLiveConversation c) = None /\
  Legacy.processorNodeRef (Legacy.stopLiveConversation c) = None /\
  exists released,
    Legacy.trace (Legacy.stopLiveConversation c)
    = Legacy.trace c ++ released /\
    forall step, (releases step released <= 1)%nat.
Proof.
  destruct (legacy_stop_refs c) as (H1 & H2 & H3 & H4).
  split; [apply legacy_stop_stop|].
  split; [exact H1|]. split; [exact H2|]. split; [exact H3|].
  split; [exact H4 | apply legacy_stop_trace].
Qed.

Ltac legacy_idle c H :=
  destruct c as [rec err hist sp ic oc ms pn closed tr];
  unfold Legacy.idle in H;
  cbn [Legacy.sessionPromiseRef Legacy.inputAudioContextRef
       Legacy.outputAudioContextRef Legacy.micStreamRef
       Legacy.processorNodeRef] in H;
  destruct H as (-> & -> & -> & -> & ->).

(** X16.  The earlier version has no guard: a second
    [startLiveConversation] without a stop in between acquires a second
    stream, two more contexts and a second session and overwrites the refs,
    so the stop that follows releases the second set only; the stream, the
    contexts and the session of the first start are not released. *)
Theorem legacy_second_start_orphans (c : Legacy.Component)
  (s1 i1 o1 p1 s2 i2 o2 p2 : Handle) :
  Legacy.idle c ->
  Legacy.state_not_closed c i2 = true ->
  Legacy.state_not_closed c o2 = true ->
  let once := fst (Legacy.startLiveConversation (env_returns s1 i1 o1 p1) c) in
  let twice :=
    fst (Legacy.startLiveConversation (env_returns s2 i2 o2 p2) once) in
  Legacy.trace (Legacy.stopLiveConversation twice)
  = Legacy.trace c
      ++ [GetUserMedia s1; NewAudioContext InputContext i1 16000;
          NewAudioContext OutputContext o1 24000; Connect p1;
          GetUserMedia s2; NewAudioContext InputContext i2 16000;
          NewAudioContext OutputContext o2 24000; Connect p2;
          Release CloseSession p2; Release StopTracks s2;
          Release CloseInputContext i2; Release CloseOutputContext o2].
Proof.
  intros Hidle Hi Ho. legacy_idle c Hidle.
  unfold Legacy.state_not_closed in Hi, Ho.
  cbn [Legacy.closedContexts] in Hi, Ho.
  apply negb_true_iff in Hi. apply negb_true_iff in Ho.
  legacy_eval. rewrite Hi. legacy_eval. rewrite Ho. legacy_eval.
  now rewrite <- !app_assoc.
Qed.

Lemma legacy_second_start_orphans_witness :
  Legacy.trace
    (Legacy.stopLiveConversation
       (fst (Legacy.startLiveConversation (env_returns 5 6 7 8)
               (fst (Legacy.startLiveConversation (env_returns 1 2 3 4)
                       Legacy.mounted)))))
  = [] ++ [GetUserMedia 1; NewAudioContext InputContext 2 16000;
           NewAudioContext OutputContext 3 24000; Connect 4;
           GetUserMedia 5; NewAudioContext InputContext 6 16000;
           NewAudioContext OutputContext 7 24000; Connect 8;
           Release CloseSession 8; Release StopTracks 5;
           Release CloseInputContext 6; Release CloseOutputContext 7].
Proof.
  apply (legacy_second_start_orphans Legacy.mounted 1 2 3 4 5 6 7 8);
    [repeat split | reflexivity | reflexivity].
Defined.

(** X17.  In the earlier version the stream is stored in its ref as soon as
    [getUserMedia] has resolved, so when a later step of the start throws,
    the component is closed with the reason in the error message and the
    next [stopLiveConversation] stops the tracks of that stream. *)
Theorem legacy_failed_start_stream_released (env : StartEnv)
  (c : Legacy.Component) (s : Handle) (reason : string) :
  Legacy.idle c ->
  getUserMedia env = Returns s ->
  thrown env = Some reason ->
  let failed := fst (Legacy.startLiveConversation env c) in
  Legacy.isRecording failed = false /\
  Legacy.error failed
  = Some ("Failed to start conversation: " ++ reason)%string /\
  Legacy.micStreamRef failed = Some s /\
  exists before after,
    Legacy.trace (Legacy.stopLiveConversation failed)
    = Legacy.trace c
        ++ GetUserMedia s :: before ++ Release StopTracks s :: after.
Proof.
  intros Hidle Hg Hthrown. legacy_idle c Hidle.
  unfold thrown in Hthrown. cbv zeta.
  unfold Legacy.startLiveConversation.
  rewrite Hg in *.
  destruct (newInputAudioContext env) as [i|e2].
  - destruct (newOutputAudioContext env) as [o|e3].
    + destruct (connect env) as [p|e4]; [discriminate|].
      injection Hthrown as <-. legacy_eval.
      split; [reflexivity|]. split; [reflexivity|]. split; [reflexivity|].
      exists [NewAudioContext InputContext i 16000;
              NewAudioContext OutputContext o 24000].
      destruct (existsb (Nat.eqb i) closed); legacy_eval;
        destruct (existsb (Nat.eqb o) closed); legacy_eval;
        eexists; rewrite <- ?app_assoc; cbn [app]; reflexivity.
    + injection Hthrown as <-. legacy_eval.
      split; [reflexivity|]. split; [reflexivity|]. split; [reflexivity|].
      exists [NewAudioContext InputContext i 16000], [].
      now rewrite <- !app_assoc.
  - injection Hthrown as <-. legacy_eval.
    split; [reflexivity|]. split; [reflexivity|]. split; [reflexivity|].
    exists [], []. now rewrite <- !app_assoc.
Qed.

Lemma legacy_failed_start_stream_released_witness :
  exists before after,
    Legacy.trace
      (Legacy.stopLiveConversation
         (fst (Legacy.startLiveConversation Scenario.env_no_context
                 Legacy.mounted)))
    = [] ++ GetUserMedia 1 :: before ++ Release StopTracks 1 :: after.
Proof.
  apply (legacy_failed_start_stream_released Scenario.env_no_context
           Legacy.mounted 1 "AudioContext unavailable");
    [repeat split | reflexivity | reflexivity].
Defined.

End LegacyFacts.

(* ================================================================== *)
(** * A stop while a start is suspended *)
(* ================================================================== *)

Module StartAwaitFacts.
Import LiveFeature StartAwait LiveFacts.

(** A start that nothing interrupts is the call followed at once by its
    continuation. *)
Lemma start_uninterrupted (env : StartEnv) (s : Session) :
  suspended s = O ->
  component (run_actions [Begins; Settles env] s)
  = fst (startLiveConversation env (component s)) /\
  suspended (run_actions [Begins; Settles env] s) = O.
Proof.
  intros Hs. unfold run_actions, startLiveConversation. cbn [fold_left act].
  unfold start_begin. destruct (isRecording (component s)).
  - cbn [component suspended act]. rewrite Hs. now split.
  - cbn [component suspended act].
    now destruct (start_try env _) as [c' k'].
Qed.

Lemma start_begin_keeps (c : Component) :
  sessionPromiseRef (fst (start_begin c)) = sessionPromiseRef c /\
  audioResourcesRef (fst (start_begin c)) = audioResourcesRef c /\
  trace (fst (start_begin c)) = trace c.
Proof. unfold start_begin. now destruct (isRecording c). Qed.

Lemma act_without_session (a : Action) (s : Session) :
  is_settle a = false ->
  sessionPromiseRef (component s) = None ->
  sessionPromiseRef (component (act a s)) = None /\
  sends (trace (component (act a s))) = sends (trace (component s)).
Proof.
  intros Ha Hp. destruct a as [|env|e]; [|discriminate|]; cbn [act].
  - destruct (start_begin_keeps (component s)) as (Hp' & _ & Ht).
    destruct (start_begin (component s)) as [c waits].
    cbn [fst component] in *. split; congruence.
  - destruct (step_without_session e (callbacks s) (component s) Hp)
      as (Hp' & Hs').
    destruct (step e (callbacks s, component s)) as [k c].
    cbn [snd component] in *. now split.
Qed.

Lemma run_actions_without_session (acts : list Action) (s : Session) :
  forallb (fun a => negb (is_settle a)) acts = true ->
  sessionPromiseRef (component s) = None ->
  sessionPromiseRef (component (run_actions acts s)) = None /\
  sends (trace (component (run_actions acts s)))
  = sends (trace (component s)).
Proof.
  revert s. induction acts as [|a acts IH]; intros s Hacts Hp; [now split|].
  cbn [forallb] in Hacts. apply andb_true_iff in Hacts.
  destruct Hacts as [Ha Hacts]. apply negb_true_iff in Ha.
  unfold run_actions in *. cbn [fold_left].
  destruct (act_without_session a s Ha Hp) as (Hp1 & Hs1).
  destruct (IH (act a s) Hacts Hp1) as (Hp2 & Hs2).
  split; [exact Hp2 | congruence].
Qed.

(** X18.  After [stopLiveConversation] has returned, and until a call of
    [startLiveConversation] gets past its [await getUserMedia], no frame is
    forwarded to the transport: the session reference is null, a capture
    callback leaves the component and its trace as they are, and whatever
    else happens (capture callbacks, inbound messages, open, error and close
    events, further stops, calls of [startLiveConversation] that reach the
    [await] and stay there), the frames sent are those sent before. *)
Theorem no_send_until_start_settles (acts : list Action) (k : Closure)
  (c : Component) (n : nat) (inputData : list Q) :
  forallb (fun a => negb (is_settle a)) acts = true ->
  let stopped := stopLiveConversation c in
  sessionPromiseRef stopped = None /\
  onaudioprocess inputData stopped = stopped /\
  sends (trace (component (run_actions acts (mkSession k stopped n))))
  = sends (trace c).
Proof.
  intros Hacts. cbv zeta. destruct (stop_refs c) as (_ & Hp & _).
  split; [exact Hp|]. split.
  - unfold onaudioprocess. now rewrite Hp.
  - destruct (run_actions_without_session acts
                (mkSession k (stopLiveConversation c) n) Hacts Hp)
      as (_ & Hs).
    rewrite Hs. apply stop_sends.
Qed.

Lemma no_send_until_start_settles_witness :
  sends (trace (component
                  (run_actions
                     [Happens (EvAudioProcess [1 # 2]%Q); Begins;
                      Happens (EvOpen 5);
                      Happens (EvAudioProcess [1 # 4]%Q); Happens EvClose]
                     (mkSession Scenario.callbacks
                                (stopLiveConversation Scenario.active) 0))))
  = sends (trace Scenario.active).
Proof.
  apply (no_send_until_start_settles
           [Happens (EvAudioProcess [1 # 2]%Q); Begins; Happens (EvOpen 5);
            Happens (EvAudioProcess [1 # 4]%Q); Happens EvClose]
           Scenario.callbacks Scenario.active 0 []).
  reflexivity.
Defined.

(** C9.  The code does not keep the never-send-after-stop property when
    the stop comes while [startLiveConversation] is suspended at
    [await getUserMedia].  From the mounted component: the start is called
    and waits for the microphone; [stopLiveConversation] runs and returns,
    finding both refs null, and leaves the component closed; the microphone
    is granted and the start goes on without looking at the component
    again: it connects and stores the session promise; the session opens;
    the next capture callback forwards its frame to that session, while
    [isRecording] is false. *)
Theorem stop_during_start_still_sends (inputData : list Q) :
  let waiting := act Begins (mkSession Scenario.callbacks Scenario.mounted 0) in
  let stopped := act (Happens EvStop) waiting in
  let final :=
    run_actions [Settles Scenario.env_ok; Happens (EvOpen 5);
                 Happens (EvAudioProcess inputData)] stopped in
  suspended waiting = 1%nat /\
  component stopped = stopLiveConversation (component waiting) /\
  lifecycle (component stopped) = Closed /\
  sessionPromiseRef (component stopped) = None /\
  sends (trace (component stopped)) = [] /\
  sessionPromiseRef (component final) = Some 4%nat /\
  isRecording (component final) = false /\
  sends (trace (component final))
  = [SendRealtimeInput 4 (Codec.encodeFrame inputData)].
Proof.
  cbv zeta. repeat (split; [reflexivity|]). reflexivity.
Qed.

End StartAwaitFacts.
